(** * Segmentation, matching and batch delivery of leads

    A shallow embedding of [execution/segment_by_job_title.py] and
    [execution/add_leads_to_campaigns_segmented.py], and the properties of
    the segmentation / matching / delivery subsystem proved about it.

    Conventions of the embedding:
    - a JSON object with string values (a lead) is a [gmap string string];
      [d.get(k)] is [d !! k];
    - Python [int]s are [Z]; [len] is [Z.of_nat (length _)];
    - files, the environment, the classifier and the network are inputs of
      the run, gathered in a record; files written are an ordered log;
      error messages are kept without the file path they interpolate;
    - strings are sequences of 8-bit characters; [str.lower] and
      [str.strip] act on the ASCII range. *)

From Stdlib Require Import ZArith Lia Permutation Ascii String.
From stdpp Require Import base list strings gmap.

#[global] Set Warnings "-clear-no-such-hyp".

(** ** Python string and truthiness helpers *)

Module Py.

(** Truthiness of a [str]: only the empty string is falsy. *)
Definition truthy (s : string) : bool :=
  match s with
  | EmptyString => false
  | String _ _ => true
  end.

(** [a or b] where both operands are results of [dict.get] ([None] or a
    string): the first operand when it is truthy, else the second. *)
Definition or_ (a b : option string) : option string :=
  match a with
  | Some s => if truthy s then a else b
  | None => b
  end.

(** [a or d] where [d] is a string literal. *)
Definition or_str (a : option string) (d : string) : string :=
  match a with
  | Some s => if truthy s then s else d
  | None => d
  end.

(** [needle in hay] on strings: literal, case-sensitive substring test. *)
Fixpoint contains (needle hay : string) : bool :=
  match hay with
  | EmptyString => String.prefix needle EmptyString
  | String _ rest => String.prefix needle hay || contains needle rest
  end.

Definition lower_char (c : ascii) : ascii :=
  let n := nat_of_ascii c in
  if (65 <=? n)%nat && (n <=? 90)%nat then ascii_of_nat (n + 32) else c.

(** [s.lower()] *)
Fixpoint lower (s : string) : string :=
  match s with
  | EmptyString => EmptyString
  | String c rest => String (lower_char c) (lower rest)
  end.

(** The characters [str.strip()] removes: tab, LF, VT, FF, CR, the
    separators 28..31 and the space. *)
Definition is_space (c : ascii) : bool :=
  let n := nat_of_ascii c in
  ((9 <=? n)%nat && (n <=? 13)%nat)
  || ((28 <=? n)%nat && (n <=? 32)%nat).

Fixpoint lstrip (s : string) : string :=
  match s with
  | EmptyString => EmptyString
  | String c rest => if is_space c then lstrip rest else s
  end.

(** [s.strip()] *)
Definition strip (s : string) : string :=
  String.rev (lstrip (String.rev (lstrip s))).

(** [any(keyword in s for keyword in keywords)] *)
Definition any_in (keywords : list string) (s : string) : bool :=
  existsb (fun keyword => contains keyword s) keywords.

(** [x in xs] on a list of strings. *)
Definition mem (x : string) (xs : list string) : bool :=
  bool_decide (x ∈ xs).

(** [len(xs)] *)
Definition len {A} (xs : list A) : Z := Z.of_nat (length xs).

(** [xs[i:j]] for [0 <= i <= j]. *)
Definition slice {A} (i j : nat) (xs : list A) : list A :=
  take (j - i) (drop i xs).

(** [range(0, n, step)] for a positive [step]. *)
Definition range_step (n step : nat) : list nat :=
  (fun k => k * step)%nat <$> seq 0 ((n + step - 1) / step).

End Py.

(** ** Shared data model *)

(** A lead: a JSON object; every field is optional and several historical
    aliases exist for the same logical field. *)
Abbreviation lead := (gmap string string).

(** What reading a JSON file can give. *)
Inductive file (A : Type) : Type :=
| FileNotFound
| InvalidJSON
| Content (a : A).
Arguments FileNotFound {A}.
Arguments InvalidJSON {A}.
Arguments Content {A} a.

(** What a call gives: the value it returns, or an exception that nothing
    catches; the exception ends the program with a traceback and exit
    status 1. *)
Inductive raising (A : Type) : Type :=
| Returned (a : A)
| Raised.
Arguments Returned {A} a.
Arguments Raised {A}.

(** A segment: the JSON object of the classifier's answer, of the fallback
    and of the emitted manifest.  The key [lead_count] is absent until the
    Segment Assigner sets it. *)
Record segment := Segment {
  segment_id : string;
  segment_name : string;
  job_titles : list string;
  messaging_angle : string;
  lead_count : option Z
}.

(** [os.path.join(dir, f"segment_{segment_id}_leads.json")], relative to the
    directory of the partitions. *)
Definition segment_file (segment_id : string) : string :=
  String.app "segment_" (String.app segment_id "_leads.json").

(** ** [segment_by_job_title.py] *)

Module Segmenter.

Inductive bucket := Exec | Operations | Marketing | Sales | Technical | General.

#[global] Instance bucket_eq_dec : EqDecision bucket.
Proof. solve_decision. Defined.

Definition exec_keywords : list string :=
  ["ceo"; "founder"; "owner"; "president"; "managing director"; "chief executive"].
Definition operations_keywords : list string :=
  ["coo"; "operations"; "chief operating"].
Definition marketing_keywords : list string :=
  ["cmo"; "marketing"; "brand"; "chief marketing"].
Definition sales_keywords : list string :=
  ["sales"; "business development"; "revenue"].
Definition technical_keywords : list string :=
  ["cto"; "technology"; "engineering"; "technical"; "chief technology"].

(** The [if]/[elif] chain of the loop of [fallback_segmentation]: the list
    the title is appended to. *)
Definition classify (title : string) : bucket :=
  let title_lower := Py.lower title in
  if Py.any_in exec_keywords title_lower then Exec
  else if Py.any_in operations_keywords title_lower then Operations
  else if Py.any_in marketing_keywords title_lower then Marketing
  else if Py.any_in sales_keywords title_lower then Sales
  else if Py.any_in technical_keywords title_lower then Technical
  else General.

(** The six lists the loop fills. *)
Record buckets := Buckets {
  exec_titles : list string;
  operations_titles : list string;
  marketing_titles : list string;
  sales_titles : list string;
  technical_titles : list string;
  general_titles : list string
}.

Definition no_titles : buckets := Buckets [] [] [] [] [] [].

(** One iteration of [for title in job_titles]. *)
Definition append_title (b : buckets) (title : string) : buckets :=
  let '(Buckets e o m s t g) := b in
  match classify title with
  | Exec => Buckets (e ++ [title]) o m s t g
  | Operations => Buckets e (o ++ [title]) m s t g
  | Marketing => Buckets e o (m ++ [title]) s t g
  | Sales => Buckets e o m (s ++ [title]) t g
  | Technical => Buckets e o m s (t ++ [title]) g
  | General => Buckets e o m s t (g ++ [title])
  end.

(** [if titles: segments.append({...})] *)
Definition append_segment (segments : list segment) (titles : list string)
    (id name angle : string) : list segment :=
  match titles with
  | [] => segments
  | _ :: _ => segments ++ [Segment id name titles angle None]
  end.

(** [segments[0]['job_titles'].extend(titles)].  The index is in range
    whenever the source reaches this statement: [exec_titles] is then
    non-empty, so the exec segment was appended first. *)
Definition extend_first (segments : list segment) (titles : list string)
    : list segment :=
  match segments with
  | [] => []
  | s :: rest =>
      Segment (segment_id s) (segment_name s) (job_titles s ++ titles)
              (messaging_angle s) (lead_count s) :: rest
  end.

Definition fallback_segmentation (job_titles : list string) : list segment :=
  let b := foldl append_title no_titles job_titles in
  let segments := [] in
  let segments :=
    append_segment segments (exec_titles b) "exec" "Executive Leadership"
      "Revenue growth and strategic outcomes" in
  let segments :=
    append_segment segments (operations_titles b) "operations"
      "Operations Leadership" "Operational efficiency with revenue impact" in
  let segments :=
    append_segment segments (marketing_titles b) "marketing"
      "Marketing Leadership" "Lead generation ROI and brand growth" in
  let segments :=
    append_segment segments (sales_titles b) "sales" "Sales Leadership"
      "Pipeline acceleration and quota attainment" in
  let segments :=
    append_segment segments (technical_titles b) "technical"
      "Technical Leadership" "Innovation and technical excellence" in
  match general_titles b with
  | [] => segments
  | _ :: _ =>
      if (Py.len (general_titles b) <? 10)%Z
         && negb (bool_decide (exec_titles b = []))
      then extend_first segments (general_titles b)
      else segments ++
           [Segment "general" "General Management" (general_titles b)
              "Business growth and operational excellence" None]
  end.

(** The inputs of one run of the Segment Assigner. *)
Record world := World {
  api_key : option string;            (* os.getenv("ANTHROPIC_API_KEY") *)
  input_file : file (list lead);      (* json.load of --input *)
  (* the external classifier on the unique titles; [None] is any
     exception raised by the call or while parsing its answer; an answer
     is a list of segments that have their id, name, titles and angle *)
  cluster_job_titles : list string → option (list segment);
  (* whether the directory [--output-dir] exists when the run starts *)
  output_dir_exists : bool
}.

(** [lead.get('job_title') or lead.get('title') or ''] *)
Definition title_of (l : lead) : string :=
  Py.or_str (Py.or_ (l !! "job_title") (l !! "title")) "".

(** Unique job titles, in order of first appearance. *)
Definition unique_titles (leads : list lead) : list string :=
  foldl (fun job_titles l =>
           let job_title := title_of l in
           if Py.truthy job_title && negb (Py.mem job_title job_titles)
           then job_titles ++ [job_title]
           else job_titles)
        [] leads.

Definition general_only : list segment :=
  [Segment "general" "General" []
     "Business growth and operational excellence" None].

Definition define_segments (w : world) (job_titles : list string)
    : list segment :=
  match job_titles with
  | [] => general_only
  | _ :: _ =>
      match cluster_job_titles w job_titles with
      | Some segment_definitions => segment_definitions
      | None => fallback_segmentation job_titles
      end
  end.

(** [title_to_segment[title.lower()] = segment['segment_id']] over all
    segments and titles; a later assignment overwrites an earlier one. *)
Definition build_title_to_segment (segments : list segment)
    : gmap string string :=
  foldl (fun m seg =>
           foldl (fun m title => <[Py.lower title := segment_id seg]> m)
                 m (job_titles seg))
        ∅ segments.

(** [segment_leads], a [defaultdict(list)]. *)
Abbreviation partitions := (gmap string (list lead)).

(** [d[k]]: reading a missing key stores and returns an empty list. *)
Definition dd_get (k : string) (d : partitions) : list lead * partitions :=
  match d !! k with
  | Some v => (v, d)
  | None => ([], <[k := []]> d)
  end.

(** [d[k].append(x)] *)
Definition dd_append (k : string) (x : lead) (d : partitions) : partitions :=
  let '(v, d) := dd_get k d in <[k := v ++ [x]]> d.

(** [d[k].extend(xs)]; when [xs] is the list stored at [k] itself the
    list is doubled, as in Python. *)
Definition dd_extend (k : string) (xs : list lead) (d : partitions)
    : partitions :=
  let '(v, d) := dd_get k d in <[k := v ++ xs]> d.

(** One iteration of the loop splitting the leads by segment. *)
Definition split_lead (title_to_segment : gmap string string)
    (st : partitions * list lead) (l : lead) : partitions * list lead :=
  let '(segment_leads, unmatched_leads) := st in
  let job_title := Py.strip (title_of l) in
  match title_to_segment !! Py.lower job_title with
  | Some segment_id =>
      if Py.truthy segment_id
      then (dd_append segment_id l segment_leads, unmatched_leads)
      else (segment_leads, unmatched_leads ++ [l])
  | None => (segment_leads, unmatched_leads ++ [l])
  end.

Definition is_exec (s : segment) : bool := String.eqb (segment_id s) "exec".

Definition with_lead_count (s : segment) (n : option Z) : segment :=
  Segment (segment_id s) (segment_name s) (job_titles s) (messaging_angle s) n.

(** [for existing_segment in filtered_segments: if ... == 'exec':
    existing_segment['lead_count'] += lead_count; break].  [None] when
    the loop ends without [break] (the [else] clause runs).  Every entry
    of [filtered_segments] has its [lead_count] set when it is appended. *)
Fixpoint bump_exec (n : Z) (filtered_segments : list segment)
    : option (list segment) :=
  match filtered_segments with
  | [] => None
  | s :: rest =>
      if is_exec s
      then Some (with_lead_count s ((fun c => c + n)%Z <$> lead_count s) :: rest)
      else (fun rest' => s :: rest') <$> bump_exec n rest
  end.

(** [for seg in filtered_segments: if ... == 'exec':
    seg['lead_count'] = n; break] *)
Fixpoint set_exec_count (n : Z) (filtered_segments : list segment)
    : list segment :=
  match filtered_segments with
  | [] => []
  | s :: rest =>
      if is_exec s
      then with_lead_count s (Some n) :: rest
      else s :: set_exec_count n rest
  end.

(** The state of the loop that filters the segments: the manifest under
    construction, the partitions, the partition files written so far
    (oldest first), and whether the directory of the partitions exists. *)
Record assigner := Assigner {
  filtered_segments : list segment;
  segment_leads : partitions;
  written : list (string * list lead);
  total_saved_leads : Z;
  output_dir : bool
}.

(** One iteration of [for segment in segment_definitions['segments']]. *)
Definition filter_segment (min_segment_size : Z) (st : assigner)
    (seg : segment) : assigner :=
  let '(leads_in_segment, partitions) :=
    dd_get (segment_id seg) (segment_leads st) in
  let count := Py.len leads_in_segment in
  if (count >=? min_segment_size)%Z then
    (* [os.makedirs(output_dir, exist_ok=True)], then the file is written *)
    Assigner (filtered_segments st ++ [with_lead_count seg (Some count)])
             partitions
             (written st ++ [(segment_file (segment_id seg), leads_in_segment)])
             (total_saved_leads st + count)
             true
  else if (count >? 0)%Z then
    match bump_exec count (filtered_segments st) with
    | Some filtered =>
        Assigner filtered
                 (dd_extend "exec" leads_in_segment partitions)
                 (written st) (total_saved_leads st) (output_dir st)
    | None =>
        let exec_segment :=
          Segment "exec" "Executive Leadership" (job_titles seg)
                  "Revenue growth and strategic outcomes" (Some count) in
        Assigner (filtered_segments st ++ [exec_segment])
                 (dd_extend "exec" leads_in_segment partitions)
                 (written st) (total_saved_leads st) (output_dir st)
    end
  else
    Assigner (filtered_segments st) partitions (written st)
             (total_saved_leads st) (output_dir st).

(** [if 'exec' in segment_leads and len(segment_leads['exec']) > 0]: the
    exec partition is written again and its [lead_count] refreshed.  The
    file is opened with no [os.makedirs] before it: when the directory
    does not exist, [open] raises [FileNotFoundError]. *)
Definition resave_exec (st : assigner) : raising assigner :=
  match segment_leads st !! "exec" with
  | Some ((_ :: _) as exec_leads) =>
      if output_dir st
      then Returned
             (Assigner (set_exec_count (Py.len exec_leads)
                                       (filtered_segments st))
                       (segment_leads st)
                       (written st ++ [("segment_exec_leads.json", exec_leads)])
                       (total_saved_leads st)
                       true)
      else Raised
  | _ => Returned st
  end.

(** The segment manifest written to [--output-mapping] (the timestamp
    [generated_at] is left out). *)
Record mapping := Mapping {
  segments : list segment;
  total_leads : Z;
  total_segments : Z
}.

(** What a run gives: the error it returns, the manifest and the
    partition files it writes, or an uncaught exception after the
    partition files it wrote. *)
Inductive outcome :=
| Failed (message : string)
| Succeeded (manifest : mapping) (files : list (string * list lead))
| Crashed (files : list (string * list lead)).

(** Everything after the leads are loaded, up to the end of the loop
    that filters the segments. *)
Definition assign (w : world) (min_segment_size : Z) (leads : list lead)
    : assigner :=
  let job_titles := unique_titles leads in
  let segment_definitions := define_segments w job_titles in
  let title_to_segment := build_title_to_segment segment_definitions in
  let '(partitions, unmatched_leads) :=
    foldl (split_lead title_to_segment) (∅, []) leads in
  let partitions :=
    match unmatched_leads with
    | [] => partitions
    | _ :: _ => dd_extend "exec" unmatched_leads partitions
    end in
  foldl (filter_segment min_segment_size)
        (Assigner [] partitions [] 0 (output_dir_exists w))
        segment_definitions.

Definition segment_by_job_title (w : world) (min_segment_size : Z)
    : outcome :=
  match api_key w with
  | None => Failed "ANTHROPIC_API_KEY not found in .env file"
  | Some key =>
      if negb (Py.truthy key)
      then Failed "ANTHROPIC_API_KEY not found in .env file"
      else
        match input_file w with
        | FileNotFound => Failed "Input file not found"
        | InvalidJSON => Failed "Invalid JSON in input file"
        | Content leads =>
            let st := assign w min_segment_size leads in
            match resave_exec st with
            | Returned st =>
                (* the directory of the manifest is made before it is
                   written *)
                Succeeded
                  (Mapping (filtered_segments st) (Py.len leads)
                           (Py.len (filtered_segments st)))
                  (written st)
            | Raised => Crashed (written st)
            end
        end
  end.

(** [main]: [sys.exit(0 if result["status"] == "success" else 1)]; an
    uncaught exception ends the process with status 1. *)
Definition exit_code (r : outcome) : Z :=
  match r with
  | Succeeded _ _ => 0
  | Failed _ => 1
  | Crashed _ => 1
  end.

(** The manifest a run emits, if it emits one. *)
Definition manifest_of (r : outcome) : option mapping :=
  match r with
  | Succeeded manifest _ => Some manifest
  | Failed _ | Crashed _ => None
  end.

(** The partition files a run writes, oldest first. *)
Definition files_of (r : outcome) : list (string * list lead) :=
  match r with
  | Succeeded _ files | Crashed files => files
  | Failed _ => []
  end.

(** The content of a partition file after the run: the last write wins. *)
Definition file_after (files : list (string * list lead)) (name : string)
    : option (list lead) :=
  snd <$> head (filter (fun f => bool_decide (fst f = name)) (reverse files)).

End Segmenter.

(** ** [add_leads_to_campaigns_segmented.py] *)

Module Delivery.

Inductive delivery_status := Success | Partial | Error | Skipped.

#[global] Instance delivery_status_eq_dec : EqDecision delivery_status.
Proof. solve_decision. Defined.

Definition is_valid_email (email : option string) : bool :=
  match email with
  | None => false
  | Some e => Py.truthy e && Py.contains "@" e
  end.

(** A JSON value as the sums of the code meet it: a number, which [+=]
    adds ([true] and [false] add as 1 and 0; the platform counts whole
    leads, and a number is taken to be an integer), or a value that [+=]
    rejects on an integer with [TypeError]: [null], a string, an array, an
    object. *)
Inductive value :=
| Number (n : Z)
| NotNumber.

(** The body of a response, as [response.json()] and [result.get] meet
    it: text that is not JSON, a JSON value that is not an object, or an
    object, of which the field [leads_uploaded] (absent, or some value) is
    used. *)
Inductive response_body :=
| NotJSON
| NotObject
| Object (leads_uploaded : option value).

(** What [requests.post] can give: a transport error
    ([requests.exceptions.RequestException]) or a response, of which the
    status code and the body are used. *)
Inductive http_outcome :=
| RequestException
| Response (status_code : Z) (body : response_body).

(** The request of one batch: credentials, destination, formatted leads. *)
Record request := Request {
  request_api_key : string;
  request_campaign_id : option string;
  request_leads : list lead
}.

(** The result of one batch: [{"uploaded": ..., "failed": ...}]. *)
Record batch_result := BatchResult {
  batch_uploaded : value;
  batch_failed : Z
}.

(** [{k: v for k, v in instantly_lead.items() if v}] *)
Definition drop_empty (fields : list (string * option string)) : lead :=
  list_to_map
    (omap (fun '(k, v) =>
             match v with
             | Some s => if Py.truthy s then Some (k, s) else None
             | None => None
             end) fields).

(** The lead object sent to the platform. *)
Definition format_lead (l : lead) : lead :=
  let email := Py.or_ (l !! "email") (l !! "contact_email") in
  let first_name := Py.or_str (Py.or_ (l !! "first_name") (l !! "firstName")) "" in
  let last_name := Py.or_str (Py.or_ (l !! "last_name") (l !! "lastName")) "" in
  let company_name :=
    Py.or_str (Py.or_ (Py.or_ (l !! "company_name_normalized")
                              (l !! "company_name"))
                      (l !! "companyName")) "" in
  let website := Py.or_str (Py.or_ (l !! "company_website") (l !! "website")) "" in
  drop_empty
    [("email", email); ("first_name", Some first_name);
     ("last_name", Some last_name); ("company_name", Some company_name);
     ("website", Some website); ("personalization", Some company_name)].

(** [upload_single_batch]: what the call gives, and the requests it sent
    through [post] (the [requests.post] of this batch).  With status 200
    the body is read: [response.json()] raises
    [requests.exceptions.JSONDecodeError] on text that is not JSON, a
    [RequestException] that the handler catches; [result.get] raises
    [AttributeError] on a JSON value that is not an object, which nothing
    catches. *)
Definition upload_single_batch (batch_num : nat) (batch : list lead)
    (campaign_id : option string) (api_key : string) (total_batches : nat)
    (post : request → http_outcome)
    : raising batch_result * list request :=
  let formatted_leads := format_lead <$> batch in
  let request_data := Request api_key campaign_id formatted_leads in
  let result :=
    match post request_data with
    | Response status_code body =>
        if (status_code =? 200)%Z
        then
          match body with
          | Object leads_uploaded =>
              Returned
                (BatchResult
                   (default (Number (Py.len formatted_leads)) leads_uploaded)
                   0)
          | NotObject => Raised
          | NotJSON =>
              Returned (BatchResult (Number 0) (Py.len formatted_leads))
          end
        else Returned (BatchResult (Number 0) (Py.len formatted_leads))
    | RequestException =>
        Returned (BatchResult (Number 0) (Py.len formatted_leads))
    end in
  (result, [request_data]).

(** One entry of the report's [results]: a JSON object whose keys depend
    on how the destination ended. *)
Record result := Result {
  status : delivery_status;
  campaign_id : option string;
  campaign_name : string;
  reason : option string;
  message : option string;
  total_leads : option Z;
  valid_leads : option Z;
  uploaded : option Z;
  failed : option Z
}.

Definition has_valid_email (l : lead) : bool :=
  is_valid_email (Py.or_ (l !! "email") (l !! "contact_email")).

(** [[valid_leads[i:i + batch_size] for i in range(0, len(valid_leads),
    batch_size)]] *)
Definition make_batches (valid_leads : list lead) (batch_size : nat)
    : list (list lead) :=
  (fun i => Py.slice i (i + batch_size) valid_leads)
    <$> Py.range_step (length valid_leads) batch_size.

(** One iteration of the loop over [as_completed]: [future.result()]
    raises what the call of the batch raised, and [+=] raises [TypeError]
    on an [uploaded] that is not a number. *)
Definition add_result (totals : raising (Z * Z))
    (future : raising batch_result) : raising (Z * Z) :=
  match totals with
  | Returned (total_uploaded, total_failed) =>
      match future with
      | Returned result =>
          match batch_uploaded result with
          | Number n =>
              Returned ((total_uploaded + n)%Z,
                        (total_failed + batch_failed result)%Z)
          | NotNumber => Raised
          end
      | Raised => Raised
      end
  | Raised => Raised
  end.

(** The loop over [as_completed]: sums in completion order. *)
Definition collect (completed : list (raising batch_result))
    : raising (Z * Z) :=
  foldl add_result (Returned (0%Z, 0%Z)) completed.

(** The futures submitted to the pool, in submission order, each with
    what its [upload_single_batch] call gives; batch numbers start at 1
    and [post n] is the network as batch number [n] meets it. *)
Definition submit_batches (batches : list (list lead))
    (campaign_id : option string) (api_key : string)
    (post : nat → request → http_outcome) : list (raising batch_result) :=
  imap (fun k batch =>
          fst (upload_single_batch (S k) batch campaign_id api_key
                 (length batches) (post (S k))))
       batches.

(** [add_leads_to_campaign].  [completion] is the order in which
    [as_completed] hands back the results of the submitted batches.  A
    batch size of 0 makes [range] raise [ValueError]. *)
Definition add_leads_to_campaign (leads : list lead)
    (campaign_id : option string) (campaign_name : string)
    (api_key : string) (batch_size : nat)
    (post : nat → request → http_outcome)
    (completion : list (raising batch_result) → list (raising batch_result))
    : raising result :=
  let valid_leads := filter (fun l => has_valid_email l = true) leads in
  match valid_leads with
  | [] =>
      Returned
        (Result Error campaign_id campaign_name None
                (Some "No leads with valid email addresses")
                None None None None)
  | _ :: _ =>
      match batch_size with
      | O => Raised
      | S _ =>
          let batches := make_batches valid_leads batch_size in
          let submitted := submit_batches batches campaign_id api_key post in
          match collect (completion submitted) with
          | Returned (total_uploaded, total_failed) =>
              Returned
                (Result (if (total_failed =? 0)%Z then Success else Partial)
                        campaign_id campaign_name None None
                        (Some (Py.len leads)) (Some (Py.len valid_leads))
                        (Some total_uploaded) (Some total_failed))
          | Raised => Raised
          end
      end
  end.

(** [extract_segment_from_campaign_name], on the [segments] array of the
    manifest. *)
Fixpoint extract_segment_from_campaign_name (campaign_name : string)
    (segments : list segment) : option string :=
  match segments with
  | [] => None
  | seg :: rest =>
      if Py.contains (segment_name seg) campaign_name
      then Some (segment_id seg)
      else extract_segment_from_campaign_name campaign_name rest
  end.

(** An entry of the destination list; any key may be absent. *)
Record campaign := Campaign {
  c_name : option string;      (* "campaign_name" *)
  c_id : option string;        (* "campaign_id" *)
  c_status : option string     (* "status" *)
}.

(** The inputs of one run of the delivery stage. *)
Record world := World {
  api_key : option string;                 (* os.getenv("INSTANTLY_API_KEY") *)
  campaigns_file : file (list campaign);   (* its "campaigns" array *)
  segments_file : file (list segment);     (* its "segments" array *)
  segment_files : string → file (list lead);
  (* the network as met by batch [n] of the destination at position [p] *)
  network : nat → nat → request → http_outcome;
  completion : list (raising batch_result) → list (raising batch_result)
}.

Record tally := Tally {
  results : list result;
  total_uploaded : Z;
  total_failed : Z;
  total_skipped : Z
}.

Definition skipped (c : campaign) (why : string) : result :=
  Result Skipped (c_id c) (default "Unknown" (c_name c)) (Some why)
         None None None None None.

Definition errored (c : campaign) (why : string) : result :=
  Result Error (c_id c) (default "Unknown" (c_name c)) (Some why)
         None None None None None.

Definition record_skip (t : tally) (r : result) : tally :=
  Tally (results t ++ [r]) (total_uploaded t) (total_failed t)
        (total_skipped t + 1).

Definition record_error (t : tally) (r : result) : tally :=
  Tally (results t ++ [r]) (total_uploaded t) (total_failed t + 1)
        (total_skipped t).

(** One iteration of [for campaign in successful_campaigns]; [position]
    is the index of the campaign in that list.  What
    [add_leads_to_campaign] raises is not caught. *)
Definition deliver (w : world) (key : string) (segment_mapping : list segment)
    (t : tally) (pc : nat * campaign) : raising tally :=
  let '(position, c) := pc in
  let name := default "Unknown" (c_name c) in
  match extract_segment_from_campaign_name name segment_mapping with
  | None =>
      Returned
        (record_skip t
           (skipped c "Could not identify segment from campaign name"))
  | Some segment_id =>
      if negb (Py.truthy segment_id)
      then
        Returned
          (record_skip t
             (skipped c "Could not identify segment from campaign name"))
      else
        match segment_files w (segment_file segment_id) with
        | FileNotFound =>
            Returned
              (record_error t
                 (errored c (String.app "Segment file not found: "
                                        (segment_file segment_id))))
        | InvalidJSON =>
            Returned (record_error t (errored c "Invalid JSON in segment file"))
        | Content [] =>
            Returned (record_skip t (skipped c "No leads in segment"))
        | Content ((_ :: _) as segment_leads) =>
            match add_leads_to_campaign segment_leads (c_id c) name key 100
                    (network w position) (completion w) with
            | Returned r =>
                Returned
                  (Tally (results t ++ [r])
                         (total_uploaded t + default 0%Z (uploaded r))
                         (total_failed t + default 0%Z (failed r))
                         (total_skipped t))
            | Raised => Raised
            end
        end
  end.

Record summary := Summary {
  campaigns_processed : Z;
  summary_total_uploaded : Z;      (* "total_uploaded" *)
  summary_total_failed : Z;        (* "total_failed" *)
  campaigns_skipped : Z
}.

(** The Run Report written to [--output]. *)
Record report := Report {
  report_status : delivery_status;
  report_results : list result;
  report_summary : summary
}.

(** What a run gives: the error it returns before any delivery, the
    report it writes, or an uncaught exception. *)
Inductive run :=
| Aborted (message : string)
| Completed (r : report)
| Crashed.

Definition successful (campaigns : list campaign) : list campaign :=
  filter (fun c => c_status c = Some "success") campaigns.

(** The loop over the destinations, in order, from a given state; an
    exception ends it. *)
Definition deliver_from (w : world) (key : string)
    (segment_mapping : list segment) (start : raising tally)
    (destinations : list (nat * campaign)) : raising tally :=
  foldl (fun t pc =>
           match t with
           | Returned t => deliver w key segment_mapping t pc
           | Raised => Raised
           end)
        start destinations.

Definition deliver_all (w : world) (key : string)
    (segment_mapping : list segment) (successful_campaigns : list campaign)
    : raising tally :=
  deliver_from w key segment_mapping (Returned (Tally [] 0 0 0))
               (imap pair successful_campaigns).

Definition add_leads_to_campaigns_segmented (w : world) : run :=
  match api_key w with
  | None => Aborted "INSTANTLY_API_KEY not found in .env file"
  | Some key =>
      if negb (Py.truthy key)
      then Aborted "INSTANTLY_API_KEY not found in .env file"
      else
        match campaigns_file w with
        | FileNotFound => Aborted "Campaigns file not found"
        | InvalidJSON => Aborted "Invalid JSON in campaigns file"
        | Content campaigns =>
            let successful_campaigns := successful campaigns in
            match successful_campaigns with
            | [] => Aborted "No successful campaigns found in campaigns file"
            | _ :: _ =>
                match segments_file w with
                | FileNotFound => Aborted "Segment mapping file not found"
                | InvalidJSON => Aborted "Invalid JSON in segments file"
                | Content segment_mapping =>
                    match deliver_all w key segment_mapping
                            successful_campaigns with
                    | Returned t =>
                        Completed
                          (Report
                             (if (total_failed t =? 0)%Z
                                 && (total_skipped t =? 0)%Z
                              then Success else Partial)
                             (results t)
                             (Summary (Py.len successful_campaigns)
                                      (total_uploaded t) (total_failed t)
                                      (total_skipped t)))
                    | Raised => Crashed
                    end
                end
            end
        end
  end.

(** [main]: [sys.exit(0 if result["status"] == "success" else 1)]; an
    uncaught exception ends the process with status 1. *)
Definition exit_code (r : run) : Z :=
  match r with
  | Completed rep =>
      match report_status rep with
      | Success => 0
      | _ => 1
      end
  | Aborted _ => 1
  | Crashed => 1
  end.

End Delivery.

(** ** Vocabulary of the specification *)

(** [needle] occurs in [hay] as a literal substring. *)
Definition Substring (needle hay : string) : Prop :=
  ∃ pre post, hay = String.app pre (String.app needle post).

Definition sumZ (l : list Z) : Z := foldr Z.add 0%Z l.

Module SegmenterSpec.
Import Segmenter.

Definition bucket_id (b : bucket) : string :=
  match b with
  | Exec => "exec"
  | Operations => "operations"
  | Marketing => "marketing"
  | Sales => "sales"
  | Technical => "technical"
  | General => "general"
  end.

(** Some keyword of the list occurs in the lower-cased title. *)
Definition hits (keywords : list string) (title : string) : Prop :=
  ∃ k, k ∈ keywords ∧ Substring k (Py.lower title).

(** The title is tested against the exec, operations, marketing, sales
    and technical keyword lists in that order; the first list that hits
    decides, and the remainder is general. *)
Inductive tested_in_order (title : string) : bucket → Prop :=
| to_exec :
    hits exec_keywords title → tested_in_order title Exec
| to_operations :
    ¬ hits exec_keywords title → hits operations_keywords title →
    tested_in_order title Operations
| to_marketing :
    ¬ hits exec_keywords title → ¬ hits operations_keywords title →
    hits marketing_keywords title → tested_in_order title Marketing
| to_sales :
    ¬ hits exec_keywords title → ¬ hits operations_keywords title →
    ¬ hits marketing_keywords title → hits sales_keywords title →
    tested_in_order title Sales
| to_technical :
    ¬ hits exec_keywords title → ¬ hits operations_keywords title →
    ¬ hits marketing_keywords title → ¬ hits sales_keywords title →
    hits technical_keywords title → tested_in_order title Technical
| to_general :
    ¬ hits exec_keywords title → ¬ hits operations_keywords title →
    ¬ hits marketing_keywords title → ¬ hits sales_keywords title →
    ¬ hits technical_keywords title → tested_in_order title General.

(** The input titles that fall into a bucket, in input order. *)
Definition titles_in (b : bucket) (titles : list string) : list string :=
  filter (fun t => classify t = b) titles.

(** General is merged into exec: it holds fewer than 10 titles and an
    exec bucket exists. *)
Definition general_absorbed (titles : list string) : Prop :=
  (Py.len (titles_in General titles) < 10)%Z ∧ titles_in Exec titles ≠ [].

(** The segment a title of bucket [b] ends in. *)
Definition final_segment (titles : list string) (b : bucket) : string :=
  if decide (b = General ∧ general_absorbed titles) then "exec"
  else bucket_id b.

(** The shapes the manifest of the fallback is made of. *)

(** The segment [append_segment] adds, if any. *)
Definition seg_of (titles : list string) (id name angle : string)
    : list segment :=
  match titles with
  | [] => []
  | _ :: _ => [Segment id name titles angle None]
  end.

Definition rest4 (titles : list string) : list segment :=
  seg_of (titles_in Operations titles) "operations" "Operations Leadership"
         "Operational efficiency with revenue impact"
  ++ seg_of (titles_in Marketing titles) "marketing" "Marketing Leadership"
         "Lead generation ROI and brand growth"
  ++ seg_of (titles_in Sales titles) "sales" "Sales Leadership"
         "Pipeline acceleration and quota attainment"
  ++ seg_of (titles_in Technical titles) "technical" "Technical Leadership"
         "Innovation and technical excellence".

Definition exec_seg (titles : list string) : segment :=
  Segment "exec" "Executive Leadership" titles
          "Revenue growth and strategic outcomes" None.

Definition general_seg (titles : list string) : segment :=
  Segment "general" "General Management" titles
          "Business growth and operational excellence" None.

End SegmenterSpec.

Module DeliverySpec.
Import Delivery.

(** No segment of the list has its name inside [name]. *)
Definition none_matches (name : string) (segs : list segment) : Prop :=
  Forall (fun seg => ¬ Substring (segment_name seg) name) segs.

(** The counts of a batch that the loop over [as_completed] can add up:
    the call returned and its [uploaded] is a number. *)
Definition counted (future : raising batch_result) : option batch_result :=
  match future with
  | Returned result =>
      match batch_uploaded result with
      | Number _ => Some result
      | NotNumber => None
      end
  | Raised => None
  end.

(** The number a batch adds to the uploaded leads. *)
Definition uploaded_leads (result : batch_result) : Z :=
  match batch_uploaded result with
  | Number n => n
  | NotNumber => 0
  end.

(** How a destination of the run ends. *)
Inductive ending :=
| NoSegment                                 (* no segment resolved *)
| FileMissing                               (* segment file not found *)
| FileCorrupt                               (* segment file is not JSON *)
| EmptyPartition                            (* segment file holds no lead *)
| NoValidEmail                              (* no lead with a valid email *)
| Delivered (batches : list batch_result)   (* the result of each batch *)
| Died.                                     (* an uncaught exception *)

(** How the destination at position [pc.1] ends, read off the inputs. *)
Definition ending_of (w : world) (key : string)
    (segment_mapping : list segment) (pc : nat * campaign) : ending :=
  match extract_segment_from_campaign_name
          (default "Unknown" (c_name pc.2)) segment_mapping with
  | None => NoSegment
  | Some segment_id =>
      if decide (segment_id = "") then NoSegment
      else
        match segment_files w (segment_file segment_id) with
        | FileNotFound => FileMissing
        | InvalidJSON => FileCorrupt
        | Content leads =>
            if decide (leads = []) then EmptyPartition
            else
              let valid := filter (fun l => has_valid_email l = true) leads in
              if decide (valid = []) then NoValidEmail
              else
                match mapM counted
                        (submit_batches (make_batches valid 100)
                           (c_id pc.2) key (network w pc.1)) with
                | Some batches => Delivered batches
                | None => Died
                end
        end
  end.

(** The endings of the destinations of a run that reaches the loop. *)
Definition endings (w : world) : list ending :=
  match api_key w, campaigns_file w, segments_file w with
  | Some key, Content campaigns, Content segment_mapping =>
      ending_of w key segment_mapping <$> imap pair (successful campaigns)
  | _, _, _ => []
  end.

(** What an ending adds to [total_failed]. *)
Definition failed_share (e : ending) : Z :=
  match e with
  | Delivered batches => sumZ (batch_failed <$> batches)
  | FileMissing | FileCorrupt => 1
  | NoSegment | EmptyPartition | NoValidEmail | Died => 0
  end.

(** The entry of [results] recorded for an ending. *)
Definition recorded (r : result) (e : ending) : Prop :=
  match e with
  | NoSegment | EmptyPartition => status r = Skipped ∧ failed r = None
  | FileMissing | FileCorrupt =>
      status r = Error ∧ failed r = None ∧ is_Some (reason r)
  | NoValidEmail =>
      status r = Error ∧ failed r = None
      ∧ message r = Some "No leads with valid email addresses"
  | Delivered batches =>
      failed r = Some (sumZ (batch_failed <$> batches))
      ∧ uploaded r = Some (sumZ (uploaded_leads <$> batches))
      ∧ status r = (if (sumZ (batch_failed <$> batches) =? 0)%Z
                    then Success else Partial)
  | Died => False
  end.

(** The failed leads of a destination: those of its batches. *)
Definition failed_leads (e : ending) : Z :=
  match e with
  | Delivered batches => sumZ (batch_failed <$> batches)
  | _ => 0
  end.

(** The destination ended in error on its segment file. *)
Definition is_file_error (e : ending) : Prop :=
  match e with
  | FileMissing | FileCorrupt => True
  | _ => False
  end.

#[global] Instance is_file_error_dec e : Decision (is_file_error e).
Proof. destruct e; cbn; apply _. Defined.

(** What an entry of [results] adds to [total_skipped]. *)
Definition skip_share (r : result) : Z :=
  if decide (status r = Skipped) then 1%Z else 0%Z.

(** The number of entries of [results] with a given status. *)
Definition count_status (st : delivery_status) (rs : list result) : Z :=
  Py.len (filter (fun r => status r = st) rs).

(** The entry of a destination that lets the exit code be 0. *)
Definition lets_exit_zero (r : result) : Prop :=
  status r = Success
  ∨ (status r = Error
     ∧ message r = Some "No leads with valid email addresses").

(** The outcome of a request is a failure of the batch: a transport
    error, a status other than 200, or a body that is not JSON. *)
Definition batch_fails (o : http_outcome) : Prop :=
  match o with
  | RequestException => True
  | Response status_code body => status_code ≠ 200%Z ∨ body = NotJSON
  end.

(** The outcome of a request reports every lead of the batch uploaded. *)
Definition batch_succeeds_in_full (o : http_outcome) (size : Z) : Prop :=
  ∃ leads_uploaded,
    o = Response 200 (Object leads_uploaded)
    ∧ default (Number size) leads_uploaded = Number size.


End DeliverySpec.

(** ** Concrete runs *)

Module Examples.

Definition with_email (e : string) : lead := {[ "email" := e ]}.
Definition titled (t : string) : lead := {[ "job_title" := t ]}.

Definition manifest : list segment :=
  [Segment "exec" "Executive Leadership" ["CEO"]
     "Revenue growth and strategic outcomes" (Some 150%Z);
   Segment "marketing" "Marketing Leadership" ["CMO"]
     "Lead generation ROI and brand growth" (Some 20%Z)].

Definition only_exec_file (leads : list lead) (name : string)
    : file (list lead) :=
  if String.eqb name "segment_exec_leads.json" then Content leads
  else FileNotFound.

(** Three destinations: the first matches no segment, the segment file
    of the second is missing, the third delivers 150 leads in two batches
    that both succeed; results come back in reverse order. *)
Definition three_destinations : Delivery.world :=
  Delivery.World (Some "key")
    (Content
       [Delivery.Campaign (Some "Product A - Unknown Segment") (Some "c1")
          (Some "success");
        Delivery.Campaign (Some "Product A - Marketing Leadership")
          (Some "c2") (Some "success");
        Delivery.Campaign (Some "Product A - Executive Leadership - HVAC")
          (Some "c3") (Some "success")])
    (Content manifest)
    (only_exec_file (replicate 150 (with_email "ann@example.com")))
    (fun _ _ _ => Delivery.Response 200 (Delivery.Object None))
    reverse.

(** One destination whose segment file holds a single lead that has no
    email address. *)
Definition one_lead_without_email : Delivery.world :=
  Delivery.World (Some "key")
    (Content
       [Delivery.Campaign (Some "Product A - Executive Leadership - HVAC")
          (Some "c1") (Some "success")])
    (Content manifest)
    (only_exec_file [{[ "first_name" := "Ann" ]}])
    (fun _ _ _ => Delivery.Response 200 (Delivery.Object None))
    reverse.

(** Ten leads titled CEO and one titled COO; the classifier is
    unavailable, so the keyword fallback defines the segments.  In this
    run and the next three the output directory exists. *)
Definition ten_ceos_one_coo : Segmenter.world :=
  Segmenter.World (Some "key")
    (Content (replicate 10 (titled "CEO") ++ [titled "COO"]))
    (fun _ => None) true.

(** Three leads titled CEO; the classifier is unavailable. *)
Definition three_ceos : Segmenter.world :=
  Segmenter.World (Some "key") (Content (replicate 3 (titled "CEO")))
    (fun _ => None) true.

(** One lead, which has no title. *)
Definition one_lead_without_title : Segmenter.world :=
  Segmenter.World (Some "key") (Content [with_email "ann@example.com"])
    (fun _ => None) true.

(** Five leads titled COO, and a classifier that answers with the
    segments exec = [CEO] and operations = [COO]. *)
Definition five_coos : Segmenter.world :=
  Segmenter.World (Some "key") (Content (replicate 5 (titled "COO")))
    (fun _ =>
       Some [Segment "exec" "Executive Leadership" ["CEO"]
               "Revenue growth and strategic outcomes" None;
             Segment "operations" "Operations Leadership" ["COO"]
               "Operational efficiency with revenue impact" None])
    true.

End Examples.

(** ** Failure conditions and loop invariants *)

Module DeliveryTerms.
Import Delivery DeliverySpec.


End DeliveryTerms.

Module SegmenterTerms.
Import Segmenter.

(** Some title of the segment has [k] as its lower-case form. *)
Definition lists_title (k : string) (seg : segment) : Prop :=
  ∃ t, t ∈ job_titles seg ∧ Py.lower t = k.

End SegmenterTerms.

Module PartitionTerms.
Import Segmenter.

(** The leads stored under a key of [segment_leads]; none when the key is
    absent. *)
Definition part (d : partitions) (k : string) : list lead :=
  default [] (d !! k).

(** The partitions the filter loop starts from: the leads split by
    segment, the unmatched leads added to exec. *)
Definition split_partitions (w : world) (leads : list lead) : partitions :=
  let segment_definitions := define_segments w (unique_titles leads) in
  let title_to_segment := build_title_to_segment segment_definitions in
  let '(partitions, unmatched_leads) :=
    foldl (split_lead title_to_segment) (∅, []) leads in
  match unmatched_leads with
  | [] => partitions
  | _ :: _ => dd_extend "exec" unmatched_leads partitions
  end.

(** What holds of the state of the filter loop once the segments
    [processed] have been through it, [start] being the partitions the
    loop started from. *)
Definition loop_inv (n : Z) (start : partitions) (processed : list segment)
    (st : assigner) : Prop :=
  (∀ k, k ≠ "exec" → part (segment_leads st) k = part start k)
  ∧ (∀ l, l ∈ part start "exec" → l ∈ part (segment_leads st) "exec")
  ∧ (∀ seg l, seg ∈ processed → segment_id seg ≠ "exec" →
       l ∈ part start (segment_id seg) →
       l ∈ part (segment_leads st) "exec"
       ∨ is_Some (file_after (written st) (segment_file (segment_id seg))))
  ∧ (∀ k c, k ≠ "exec" →
       file_after (written st) (segment_file k) = Some c → c = part start k)
  ∧ (∀ s, s ∈ filtered_segments st → segment_id s ≠ "exec" →
       (∃ seg, seg ∈ processed
               ∧ s = with_lead_count seg
                       (Some (Py.len (part start (segment_id s)))))
       ∧ (n ≤ Py.len (part start (segment_id s)))%Z
       ∧ is_Some (file_after (written st) (segment_file (segment_id s))))
  ∧ ((1 ≤ n)%Z →
     (∃ s, s ∈ filtered_segments st ∧ segment_id s = "exec") →
     part (segment_leads st) "exec" ≠ []).

(** The partitions and the files written hold leads of the partitions the
    loop started from, and no other. *)
Definition origin_inv (start : partitions) (st : assigner) : Prop :=
  (∀ l k, l ∈ part (segment_leads st) k → ∃ k', l ∈ part start k')
  ∧ (∀ name c l, (name, c) ∈ written st → l ∈ c → ∃ k', l ∈ part start k').

End PartitionTerms.

(** ** [parse_json_from_response] of [segment_by_job_title.py] *)

Module Response.

(** [s[n:]] *)
Fixpoint skip (n : nat) (s : string) : string :=
  match n, s with
  | O, _ => s
  | S n', String _ rest => skip n' rest
  | S _, EmptyString => EmptyString
  end.

(** [s.split(sep)[0]] for a non-empty [sep]: the text before the first
    occurrence of [sep], all of [s] when there is none. *)
Fixpoint before (sep s : string) : string :=
  match s with
  | EmptyString => EmptyString
  | String c rest =>
      if String.prefix sep s then EmptyString else String c (before sep rest)
  end.

(** The text after the first occurrence of a non-empty [sep], if any. *)
Fixpoint after (sep s : string) : option string :=
  match s with
  | EmptyString => None
  | String _ rest =>
      if String.prefix sep s then Some (skip (String.length sep) s)
      else after sep rest
  end.

(** [s.split(sep)[1]] for a non-empty [sep]; [None] is the [IndexError] of
    a string without [sep]. *)
Definition second_piece (sep s : string) : option string :=
  before sep <$> after sep s.

(** The text handed to [json.loads]. *)
Definition extract_json_text (response_text : string) : option string :=
  let text := Py.strip response_text in
  if Py.contains "```json" text then
    (fun t => Py.strip (before "```" t)) <$> second_piece "```json" text
  else if Py.contains "```" text then
    (fun t => Py.strip (before "```" t)) <$> second_piece "```" text
  else Some text.

(** [parse_json_from_response], over the JSON parser. *)
Definition parse_json_from_response {A} (json_loads : string → option A)
    (response_text : string) : option A :=
  extract_json_text response_text ≫= json_loads.

(** The string has no backtick. *)
Fixpoint backtick_free (s : string) : Prop :=
  match s with
  | EmptyString => True
  | String c rest => c ≠ "`"%char ∧ backtick_free rest
  end.

End Response.

(** * Properties *)

(** ** Strings *)

Lemma prefix_app (a b : string) :
  String.prefix a b = true ↔ ∃ post, b = String.app a post.
Proof.
  revert b. induction a as [|c a IH]; intros b.
  - split; [intros _; by exists b | by destruct b].
  - destruct b as [|d b]; simpl.
    + split; [done | intros [post H]; discriminate].
    + destruct (ascii_dec c d) as [->|Hne].
      * rewrite IH. split; intros [post H]; exists post.
        -- simpl. by rewrite H.
        -- simpl in H. by injection H.
      * split; [done | intros [post H]; simpl in H; injection H; done].
Qed.

Lemma contains_spec (needle hay : string) :
  Py.contains needle hay = true ↔ Substring needle hay.
Proof.
  induction hay as [|c hay IH].
  - change (Py.contains needle "") with (String.prefix needle "").
    rewrite prefix_app. split.
    + intros [post H]. exists "", post. done.
    + intros (pre & post & H). destruct pre; simpl in H; [|discriminate].
      by exists post.
  - change (Py.contains needle (String c hay))
      with (String.prefix needle (String c hay) || Py.contains needle hay).
    rewrite orb_true_iff, prefix_app, IH. split.
    + intros [[post H] | (pre & post & H)].
      * exists "", post. done.
      * exists (String c pre), post. simpl. by rewrite H.
    + intros (pre & post & H). destruct pre as [|d pre]; simpl in H.
      * left. by exists post.
      * right. exists pre, post. by injection H.
Qed.

Lemma contains_false (needle hay : string) :
  Py.contains needle hay = false ↔ ¬ Substring needle hay.
Proof.
  rewrite <- contains_spec. destruct (Py.contains needle hay); naive_solver.
Qed.

(** ** The keyword fallback of the Title Classifier *)

Module FallbackProofs.
Import Segmenter SegmenterSpec.

Lemma any_in_hits (keywords : list string) (title : string) :
  Py.any_in keywords (Py.lower title) = true ↔ hits keywords title.
Proof.
  unfold Py.any_in, hits. rewrite existsb_exists.
  split; intros (k & Hk & H); exists k.
  - split; [by apply list_elem_of_In | by apply contains_spec].
  - split; [by apply list_elem_of_In | by apply contains_spec].
Qed.

Lemma any_in_misses (keywords : list string) (title : string) :
  Py.any_in keywords (Py.lower title) = false ↔ ¬ hits keywords title.
Proof.
  rewrite <- any_in_hits. destruct (Py.any_in _ _); naive_solver.
Qed.

Lemma classify_tested_in_order (title : string) (b : bucket) :
  classify title = b ↔ tested_in_order title b.
Proof.
  unfold classify. split.
  - intros <-.
    destruct (Py.any_in exec_keywords _) eqn:He;
      [apply to_exec; by apply any_in_hits|].
    destruct (Py.any_in operations_keywords _) eqn:Ho;
      [apply to_operations; by (apply any_in_hits || apply any_in_misses)|].
    destruct (Py.any_in marketing_keywords _) eqn:Hm;
      [apply to_marketing; by (apply any_in_hits || apply any_in_misses)|].
    destruct (Py.any_in sales_keywords _) eqn:Hs;
      [apply to_sales; by (apply any_in_hits || apply any_in_misses)|].
    destruct (Py.any_in technical_keywords _) eqn:Ht;
      [apply to_technical; by (apply any_in_hits || apply any_in_misses)|].
    apply to_general; by apply any_in_misses.
  - intros H; destruct H;
      repeat match goal with
             | H : hits _ _ |- _ => apply any_in_hits in H; rewrite H
             | H : ¬ hits _ _ |- _ => apply any_in_misses in H; rewrite H
             end; done.
Qed.

Lemma foldl_append_title (titles e o m s t g : list string) :
  foldl append_title (Buckets e o m s t g) titles =
  Buckets (e ++ titles_in Exec titles) (o ++ titles_in Operations titles)
          (m ++ titles_in Marketing titles) (s ++ titles_in Sales titles)
          (t ++ titles_in Technical titles) (g ++ titles_in General titles).
Proof.
  revert e o m s t g. induction titles as [|a titles IH]; intros e o m s t g.
  - cbn. by rewrite !app_nil_r.
  - cbn [foldl]. unfold append_title at 2, titles_in.
    rewrite !filter_cons.
    destruct (classify a) eqn:Ha; rewrite IH; cbn; unfold titles_in;
      by rewrite <- ?app_assoc.
Qed.

Lemma titles_in_partition (titles : list string) :
  titles_in Exec titles ++ titles_in Operations titles
    ++ titles_in Marketing titles ++ titles_in Sales titles
    ++ titles_in Technical titles ++ titles_in General titles ≡ₚ titles.
Proof.
  induction titles as [|a titles IH]; [done|].
  unfold titles_in in *. rewrite !filter_cons.
  destruct (classify a) eqn:Ha; repeat case_decide; try discriminate;
    try congruence; cbn; rewrite <- ?Permutation_middle; by apply perm_skip.
Qed.

Lemma append_segment_seg_of segments titles id name angle :
  append_segment segments titles id name angle =
  segments ++ seg_of titles id name angle.
Proof. destruct titles; cbn; by rewrite ?app_nil_r. Qed.

Lemma seg_of_titles titles id name angle :
  concat (job_titles <$> seg_of titles id name angle) = titles.
Proof. destruct titles; cbn; by rewrite ?app_nil_r. Qed.

Lemma elem_of_seg_of s titles id name angle :
  s ∈ seg_of titles id name angle ↔
  titles ≠ [] ∧ s = Segment id name titles angle None.
Proof.
  destruct titles; cbn.
  - rewrite elem_of_nil. split; [done | by intros []].
  - rewrite list_elem_of_singleton. split; [done | by intros []].
Qed.

Lemma fallback_shape (titles : list string) :
  let E := titles_in Exec titles in
  let G := titles_in General titles in
  (G = [] ∧ E = [] ∧ fallback_segmentation titles = rest4 titles)
  ∨ (G = [] ∧ E ≠ [] ∧
     fallback_segmentation titles = exec_seg E :: rest4 titles)
  ∨ (G ≠ [] ∧ general_absorbed titles ∧
     fallback_segmentation titles = exec_seg (E ++ G) :: rest4 titles)
  ∨ (G ≠ [] ∧ E = [] ∧
     fallback_segmentation titles = rest4 titles ++ [general_seg G])
  ∨ (G ≠ [] ∧ E ≠ [] ∧ ¬ general_absorbed titles ∧
     fallback_segmentation titles =
     exec_seg E :: rest4 titles ++ [general_seg G]).
Proof.
  intros E G. unfold fallback_segmentation, no_titles, general_absorbed.
  rewrite foldl_append_title. cbn [exec_titles operations_titles
    marketing_titles sales_titles technical_titles general_titles app].
  rewrite !append_segment_seg_of. cbn [app].
  unfold rest4, exec_seg, general_seg. rewrite <- !app_assoc. fold E G.
  destruct G as [|g G'] eqn:HG, E as [|e E'] eqn:HE; cbn [seg_of app].
  - by left.
  - right; left. done.
  - right; right; right; left. by rewrite andb_false_r.
  - destruct (Py.len (g :: G') <? 10)%Z eqn:Hlen; cbn [andb negb bool_decide].
    + right; right; left. repeat split; try done.
      by apply Z.ltb_lt.
    + right; right; right; right. repeat split; try done.
      apply Z.ltb_ge in Hlen. intros [? _]. lia.
Qed.

Lemma elem_of_titles_in t b titles :
  t ∈ titles_in b titles ↔ t ∈ titles ∧ classify t = b.
Proof. unfold titles_in. rewrite list_elem_of_filter. tauto. Qed.

Lemma final_segment_cases titles c b :
  bucket_id b = final_segment titles c ↔
  (c = b ∧ ¬ (b = General ∧ general_absorbed titles))
  ∨ (b = Exec ∧ c = General ∧ general_absorbed titles).
Proof.
  unfold final_segment. case_decide as H.
  - destruct H as [-> H]. destruct b; cbn; naive_solver.
  - destruct c, b; cbn; naive_solver.
Qed.

(** What is known of a segment of [rest4]. *)
Lemma elem_of_rest4 s titles :
  s ∈ rest4 titles →
  ∃ b, b ≠ Exec ∧ b ≠ General ∧ segment_id s = bucket_id b
       ∧ job_titles s = titles_in b titles.
Proof.
  unfold rest4. rewrite !elem_of_app, !elem_of_seg_of.
  intros [[_ ->]|[[_ ->]|[[_ ->]|[_ ->]]]];
    [exists Operations | exists Marketing | exists Sales | exists Technical];
    done.
Qed.

Lemma rest4_titles titles :
  concat (job_titles <$> rest4 titles) =
  titles_in Operations titles ++ titles_in Marketing titles
    ++ titles_in Sales titles ++ titles_in Technical titles.
Proof.
  unfold rest4. by rewrite !fmap_app, !concat_app, !seg_of_titles.
Qed.

Lemma seg_of_ids titles id name angle :
  segment_id <$> seg_of titles id name angle `sublist_of` [id].
Proof. destruct titles; cbn; [apply sublist_nil_l | done]. Qed.

Lemma rest4_ids titles :
  segment_id <$> rest4 titles
    `sublist_of` ["operations"; "marketing"; "sales"; "technical"].
Proof.
  unfold rest4. rewrite !fmap_app.
  change ["operations"; "marketing"; "sales"; "technical"]
    with (["operations"] ++ ["marketing"] ++ ["sales"] ++ ["technical"]).
  repeat apply sublist_app; apply seg_of_ids.
Qed.

Lemma in_segment_iff titles s t :
  s ∈ fallback_segmentation titles →
  t ∈ job_titles s ↔
  t ∈ titles ∧ segment_id s = final_segment titles (classify t).
Proof.
  intros Hs.
  assert (Hrest : s ∈ rest4 titles →
            t ∈ job_titles s ↔
            t ∈ titles ∧ segment_id s = final_segment titles (classify t)).
  { intros (b & Hb1 & Hb2 & -> & ->)%elem_of_rest4.
    rewrite elem_of_titles_in, final_segment_cases. naive_solver. }
  assert (HG : ∀ x, x ∈ titles → classify x = General →
            titles_in General titles ≠ []).
  { intros x Hx Hc Hnil.
    assert (x ∈ titles_in General titles) as Hin by by apply elem_of_titles_in.
    rewrite Hnil in Hin. by apply elem_of_nil in Hin. }
  revert Hs.
  destruct (fallback_shape titles)
    as [(HGn & HEn & ->)|[(HGn & HEn & ->)|[(HGn & Habs & ->)|
        [(HGn & HEn & ->)|(HGn & HEn & Habs & ->)]]]]; intros Hs.
  - by apply Hrest.
  - apply elem_of_cons in Hs as [->|Hs]; [|by apply Hrest].
    cbn. rewrite elem_of_titles_in.
    change "exec" with (bucket_id Exec). rewrite final_segment_cases.
    naive_solver.
  - apply elem_of_cons in Hs as [->|Hs]; [|by apply Hrest].
    cbn. rewrite elem_of_app, !elem_of_titles_in.
    change "exec" with (bucket_id Exec). rewrite final_segment_cases.
    naive_solver.
  - apply elem_of_app in Hs as [Hs| ->%list_elem_of_singleton];
      [by apply Hrest|].
    cbn. rewrite elem_of_titles_in.
    change "general" with (bucket_id General). rewrite final_segment_cases.
    unfold general_absorbed. naive_solver.
  - apply elem_of_cons in Hs as [->|Hs].
    { cbn. rewrite elem_of_titles_in.
      change "exec" with (bucket_id Exec). rewrite final_segment_cases.
      naive_solver. }
    apply elem_of_app in Hs as [Hs| ->%list_elem_of_singleton];
      [by apply Hrest|].
    cbn. rewrite elem_of_titles_in.
    change "general" with (bucket_id General). rewrite final_segment_cases.
    naive_solver.
Qed.

Lemma fallback_titles titles :
  concat (job_titles <$> fallback_segmentation titles) ≡ₚ titles.
Proof.
  pose proof (titles_in_partition titles) as HP.
  destruct (fallback_shape titles)
    as [(HGn & HEn & ->)|[(HGn & HEn & ->)|[(HGn & Habs & ->)|
        [(HGn & HEn & ->)|(HGn & HEn & Habs & ->)]]]];
    rewrite ?fmap_cons, ?fmap_app, ?concat_cons, ?concat_app, ?rest4_titles;
    cbn [exec_seg general_seg job_titles fmap list_fmap concat app].
  - rewrite HGn, HEn in HP. by rewrite !app_nil_r in HP.
  - rewrite HGn in HP. by rewrite !app_nil_r in HP.
  - etrans; [|exact HP]. rewrite <- !app_assoc.
    apply Permutation_app_head.
    etrans; [apply Permutation_app_comm|]. by rewrite <- !app_assoc.
  - rewrite HEn in HP. by rewrite app_nil_r, <- !app_assoc.
  - by rewrite app_nil_r, <- !app_assoc.
Qed.

Lemma fallback_ids titles :
  NoDup (segment_id <$> fallback_segmentation titles).
Proof.
  assert (NoDup ["exec"; "operations"; "marketing"; "sales"; "technical";
                 "general"]) as Hall.
  { apply (bool_decide_unpack _). by vm_compute. }
  pose proof (rest4_ids titles) as Hr.
  eapply sublist_NoDup; [exact Hall|].
  destruct (fallback_shape titles)
    as [(HGn & HEn & ->)|[(HGn & HEn & ->)|[(HGn & Habs & ->)|
        [(HGn & HEn & ->)|(HGn & HEn & Habs & ->)]]]];
    rewrite ?fmap_cons, ?fmap_app; cbn [exec_seg general_seg segment_id fmap list_fmap].
  - apply sublist_cons.
    change ["operations"; "marketing"; "sales"; "technical"; "general"]
      with (["operations"; "marketing"; "sales"; "technical"] ++ ["general"]).
    by apply sublist_inserts_r.
  - apply sublist_skip.
    change ["operations"; "marketing"; "sales"; "technical"; "general"]
      with (["operations"; "marketing"; "sales"; "technical"] ++ ["general"]).
    by apply sublist_inserts_r.
  - apply sublist_skip.
    change ["operations"; "marketing"; "sales"; "technical"; "general"]
      with (["operations"; "marketing"; "sales"; "technical"] ++ ["general"]).
    by apply sublist_inserts_r.
  - apply sublist_cons.
    change ["operations"; "marketing"; "sales"; "technical"; "general"]
      with (["operations"; "marketing"; "sales"; "technical"] ++ ["general"]).
    by apply sublist_app.
  - apply sublist_skip.
    change ["operations"; "marketing"; "sales"; "technical"; "general"]
      with (["operations"; "marketing"; "sales"; "technical"] ++ ["general"]).
    by apply sublist_app.
Qed.

Lemma NoDup_fmap_eq {A B} (f : A → B) (l : list A) (x y : A) :
  NoDup (f <$> l) → x ∈ l → y ∈ l → f x = f y → x = y.
Proof.
  induction l as [|a l IH]; [by intros _ ?%elem_of_nil|].
  rewrite fmap_cons, NoDup_cons, !elem_of_cons, list_elem_of_fmap.
  intros [Ha Hl] [->|Hx] [->|Hy] Hf; [done| | |by apply IH].
  - destruct Ha. by exists y.
  - destruct Ha. by exists x.
Qed.

(** C9: the keyword fallback puts every input title in exactly one
    segment of its manifest: the titles of the segments, taken together,
    are the input titles rearranged (none omitted, none added), the
    segment ids are pairwise distinct, every input title lies in one
    segment and no other, and that segment is the one of the first of the
    exec, operations, marketing, sales and technical keyword lists that
    hits the lower-cased title, general otherwise, where general is merged
    into exec when it holds fewer than 10 titles and exec is non-empty. *)
Theorem fallback_covers_each_title_once (titles : list string) :
  let segs := fallback_segmentation titles in
  concat (job_titles <$> segs) ≡ₚ titles
  ∧ NoDup (segment_id <$> segs)
  ∧ (∀ t, t ∈ titles →
       ∃ s, s ∈ segs ∧ t ∈ job_titles s
            ∧ ∀ s', s' ∈ segs → t ∈ job_titles s' → s' = s)
  ∧ (∀ s t, s ∈ segs →
       t ∈ job_titles s ↔
       t ∈ titles ∧ segment_id s = final_segment titles (classify t))
  ∧ (∀ t b, classify t = b ↔ tested_in_order t b)
  ∧ (titles ≠ [] → segs ≠ []).
Proof.
  intros segs.
  pose proof (fallback_titles titles) as Hperm.
  pose proof (fallback_ids titles) as Hids.
  fold segs in Hperm, Hids.
  assert (Hex : ∀ t, t ∈ titles → ∃ s, s ∈ segs ∧ t ∈ job_titles s).
  { intros t Ht. rewrite <- Hperm in Ht.
    apply list_elem_of_In, in_concat in Ht as (ts & Hin & Hts).
    apply list_elem_of_In, list_elem_of_fmap in Hin as (s & -> & Hs).
    exists s. split; [done | by apply list_elem_of_In]. }
  split; [exact Hperm|]. split; [exact Hids|]. split; [|split; [|split]].
  - intros t Ht. destruct (Hex t Ht) as (s & Hs & Hts).
    exists s. split; [done|]. split; [done|].
    intros s' Hs' Hts'. apply (NoDup_fmap_eq segment_id segs); [done..|].
    apply (in_segment_iff titles) in Hts as [_ ->]; [|done].
    by apply (in_segment_iff titles) in Hts' as [_ ->].
  - intros s t Hs. by apply in_segment_iff.
  - apply classify_tested_in_order.
  - intros Hne Hnil. destruct titles as [|t titles']; [done|].
    destruct (Hex t) as (s & Hs & _); [by left|].
    rewrite Hnil in Hs. by apply elem_of_nil in Hs.
Qed.
End FallbackProofs.

(** ** The Destination Matcher *)

Module MatcherProofs.
Import Delivery DeliverySpec.

Lemma extract_some name segs id :
  extract_segment_from_campaign_name name segs = Some id ↔
  ∃ before seg after,
    segs = before ++ seg :: after ∧ segment_id seg = id
    ∧ Substring (segment_name seg) name ∧ none_matches name before.
Proof.
  induction segs as [|s segs IH]; cbn.
  - split; [done|]. intros (before & seg & after & H & _).
    by destruct before.
  - destruct (Py.contains (segment_name s) name) eqn:Hs.
    + apply contains_spec in Hs. split.
      * intros [= <-]. exists [], s, segs. repeat split; try done. constructor.
      * intros (before & seg & after & H & <- & Hm & Hnone).
        destruct before as [|b before]; cbn in H.
        -- by injection H as <- _.
        -- injection H as <- _. by apply Forall_cons in Hnone as [? _].
    + apply contains_false in Hs. rewrite IH. split.
      * intros (before & seg & after & -> & <- & Hm & Hnone).
        exists (s :: before), seg, after. repeat split; try done.
        by constructor.
      * intros (before & seg & after & H & <- & Hm & Hnone).
        destruct before as [|b before]; cbn in H.
        -- injection H as <- _. done.
        -- injection H as <- ->. apply Forall_cons in Hnone as [_ Hnone].
           by exists before, seg, after.
Qed.

Lemma extract_none name segs :
  extract_segment_from_campaign_name name segs = None ↔
  none_matches name segs.
Proof.
  unfold none_matches. induction segs as [|s segs IH]; cbn.
  - split; [constructor | done].
  - rewrite Forall_cons, <- IH, <- contains_false.
    destruct (Py.contains (segment_name s) name); naive_solver.
Qed.

(** C8: the Destination Matcher returns the [segment_id] of the first
    segment, in the stored order of the manifest, whose [segment_name] is
    a literal substring of the display name, and [None] exactly when no
    segment name is one; the test is case-sensitive.  With segment names
    "Executive Leadership" and "Marketing Leadership", the name
    "Product A - Executive Leadership - HVAC" resolves to the id of the
    first segment and "Product A - Unknown Segment" to [None]. *)
Theorem matcher_returns_first_substring_match :
  (∀ name segs id,
     extract_segment_from_campaign_name name segs = Some id ↔
     ∃ before seg after,
       segs = before ++ seg :: after ∧ segment_id seg = id
       ∧ Substring (segment_name seg) name ∧ none_matches name before)
  ∧ (∀ name segs,
       extract_segment_from_campaign_name name segs = None ↔
       none_matches name segs)
  ∧ (∀ id1 id2 titles1 titles2 angle1 angle2 count1 count2,
       let manifest :=
         [Segment id1 "Executive Leadership" titles1 angle1 count1;
          Segment id2 "Marketing Leadership" titles2 angle2 count2] in
       extract_segment_from_campaign_name
         "Product A - Executive Leadership - HVAC" manifest = Some id1
       ∧ extract_segment_from_campaign_name
           "Product A - Unknown Segment" manifest = None
       ∧ extract_segment_from_campaign_name
           "Product A - executive leadership - HVAC" manifest = None).
Proof.
  split; [exact extract_some|]. split; [exact extract_none|].
  intros. by vm_compute.
Qed.
End MatcherProofs.

(** ** The Batch Delivery Engine *)

Module BatchProofs.
Import Delivery DeliverySpec.

Lemma sumZ_app (l k : list Z) : sumZ (l ++ k) = (sumZ l + sumZ k)%Z.
Proof. unfold sumZ. induction l as [|x l IH]; cbn; lia. Qed.

Lemma sumZ_perm (l k : list Z) : l ≡ₚ k → sumZ l = sumZ k.
Proof. unfold sumZ. induction 1; cbn; lia. Qed.

Lemma foldl_add_result_raised (l : list (raising batch_result)) :
  foldl add_result Raised l = Raised.
Proof. induction l as [|x l IH]; [done | by cbn]. Qed.

Lemma collect_from (u f : Z) (l : list (raising batch_result)) :
  foldl add_result (Returned (u, f)) l =
  match mapM counted l with
  | Some batches =>
      Returned ((u + sumZ (uploaded_leads <$> batches))%Z,
                (f + sumZ (batch_failed <$> batches))%Z)
  | None => Raised
  end.
Proof.
  revert u f. induction l as [|x l IH]; intros u f.
  - cbn. do 2 f_equal; lia.
  - cbn [foldl]. destruct x as [[[n|] bf]|]; cbn.
    + rewrite IH. destruct (mapM counted l) as [batches|]; cbn; [|done].
      unfold sumZ, uploaded_leads. cbn. do 2 f_equal; lia.
    + apply foldl_add_result_raised.
    + apply foldl_add_result_raised.
Qed.

(** The loop adds the batches up when every call returned a result with
    a number of uploaded leads, and raises otherwise. *)
Lemma collect_sums (l : list (raising batch_result)) :
  collect l =
  match mapM counted l with
  | Some batches =>
      Returned (sumZ (uploaded_leads <$> batches),
                sumZ (batch_failed <$> batches))
  | None => Raised
  end.
Proof.
  unfold collect. rewrite collect_from.
  by destruct (mapM counted l).
Qed.

Lemma mapM_counted_perm (l k : list (raising batch_result)) :
  l ≡ₚ k →
  match mapM counted l, mapM counted k with
  | Some a, Some b => a ≡ₚ b
  | None, None => True
  | _, _ => False
  end.
Proof.
  induction 1 as [|x l k _ IH|x y l|l k m _ IH1 _ IH2]; cbn.
  - done.
  - destruct (counted x); cbn; [|done].
    destruct (mapM counted l), (mapM counted k); cbn; try done.
    by constructor.
  - destruct (counted x), (counted y); cbn; try done;
      destruct (mapM counted l); cbn; try done.
    apply perm_swap.
  - destruct (mapM counted l), (mapM counted k), (mapM counted m);
      try done.
    by etrans.
Qed.

(** What the loop gives does not depend on the order of completion. *)
Lemma collect_perm (l k : list (raising batch_result)) :
  l ≡ₚ k → collect l = collect k.
Proof.
  intros H%mapM_counted_perm. rewrite !collect_sums.
  destruct (mapM counted l) as [a|], (mapM counted k) as [b|]; try done.
  do 2 f_equal; apply sumZ_perm; by apply fmap_Permutation.
Qed.

Lemma upload_failed_nonneg n batch cid key total post r :
  (upload_single_batch n batch cid key total post).1 = Returned r →
  (0 ≤ batch_failed r)%Z.
Proof.
  unfold upload_single_batch, Py.len. cbn.
  destruct (post _) as [|code body]; cbn.
  - intros [= <-]. cbn. lia.
  - destruct (code =? 200)%Z; [destruct body|];
      intros [= <-]; cbn; lia.
Qed.

Lemma upload_result_200 n batch cid key total post leads_uploaded :
  post (Request key cid (format_lead <$> batch))
    = Response 200 (Object leads_uploaded) →
  (upload_single_batch n batch cid key total post).1 =
  Returned (BatchResult (default (Number (Py.len batch)) leads_uploaded) 0).
Proof.
  intros H. unfold upload_single_batch. cbn. rewrite H. cbn.
  unfold Py.len. by rewrite length_fmap.
Qed.

Lemma upload_result_failure n batch cid key total post :
  batch_fails (post (Request key cid (format_lead <$> batch))) →
  (upload_single_batch n batch cid key total post).1 =
  Returned (BatchResult (Number 0) (Py.len batch)).
Proof.
  unfold upload_single_batch, batch_fails. cbn.
  destruct (post _) as [|code body]; unfold Py.len; rewrite length_fmap;
    [done|].
  intros [->%Z.eqb_neq| ->]; [done|]. by destruct (code =? 200)%Z.
Qed.

Lemma upload_result_not_object n batch cid key total post :
  post (Request key cid (format_lead <$> batch)) = Response 200 NotObject →
  (upload_single_batch n batch cid key total post).1 = Raised.
Proof. intros H. unfold upload_single_batch. cbn. by rewrite H. Qed.

(** C6 as the code has it: one request per batch, carrying the
    destination and the formatted leads.  A response with status 200
    whose body is a JSON object gives uploaded = the [leads_uploaded] of
    the body, whatever that value is (the batch size when the field is
    absent), and failed = 0.  A response with status 200 whose body is
    not JSON, a response with any other status, 2xx or not, and a
    transport error give uploaded = 0 and failed = the batch size.  A
    response with status 200 whose body is JSON but not an object makes
    the call raise. *)
Theorem upload_single_batch_counts
    (batch_num : nat) (batch : list lead) (campaign_id : option string)
    (key : string) (total_batches : nat) (post : request → http_outcome) :
  let request_data := Request key campaign_id (format_lead <$> batch) in
  let out := upload_single_batch batch_num batch campaign_id key
               total_batches post in
  let all_failed := Returned (BatchResult (Number 0) (Py.len batch)) in
  out.2 = [request_data]
  ∧ (∀ leads_uploaded,
       post request_data = Response 200 (Object leads_uploaded) →
       out.1 = Returned
                 (BatchResult
                    (default (Number (Py.len batch)) leads_uploaded) 0))
  ∧ (post request_data = Response 200 NotJSON → out.1 = all_failed)
  ∧ (post request_data = Response 200 NotObject → out.1 = Raised)
  ∧ (∀ code body, post request_data = Response code body → code ≠ 200%Z →
       out.1 = all_failed)
  ∧ (post request_data = RequestException → out.1 = all_failed).
Proof.
  intros request_data out all_failed. split; [done|]. unfold out, all_failed.
  split; [|split; [|split; [|split]]].
  - intros leads_uploaded H. by apply upload_result_200.
  - intros H. apply upload_result_failure. fold request_data.
    rewrite H. by right.
  - intros H. by apply upload_result_not_object.
  - intros code body H Hcode. apply upload_result_failure.
    fold request_data. rewrite H. by left.
  - intros H. apply upload_result_failure.
    fold request_data. by rewrite H.
Qed.

Lemma upload_single_batch_counts_witness :
  let batch : list lead := [{[ "email" := "ann@example.com" ]}] in
  let out := upload_single_batch 1 batch (Some "c1") "key" 1
               (fun _ => Response 200 NotJSON) in
  out.2 = [Request "key" (Some "c1") (format_lead <$> batch)]
  ∧ out.1 = Returned (BatchResult (Number 0) 1).
Proof.
  intros batch out.
  destruct (upload_single_batch_counts 1 batch (Some "c1") "key" 1
              (fun _ => Response 200 NotJSON))
    as (Hsent & _ & Hnotjson & _).
  split; [exact Hsent|]. exact (Hnotjson eq_refl).
Defined.

(** C6 as stated fails: a 201 response, a 2xx answer that reports the
    lead uploaded, is counted as a failed batch. *)
Lemma upload_201_counts_as_failed :
  let batch : list lead := [{[ "email" := "ann@example.com" ]}] in
  let out := upload_single_batch 1 batch (Some "c1") "key" 1
               (fun _ => Response 201 (Object (Some (Number 1)))) in
  (200 ≤ 201 ≤ 299)%Z
  ∧ out.1 = Returned (BatchResult (Number 0) 1)
  ∧ out.1 ≠ Returned (BatchResult (Number 1) 0).
Proof. cbn. split; [lia|]. split; [done|]. by intros [= ?]. Qed.

Lemma make_batches_250 (valid : list lead) :
  length valid = 250%nat →
  make_batches valid 100 =
  [take 100 valid; take 100 (drop 100 valid); drop 200 valid].
Proof.
  intros Hlen. unfold make_batches, Py.range_step. rewrite Hlen.
  change ((250 + 100 - 1) / 100)%nat with 3%nat. cbn [seq fmap list_fmap].
  unfold Py.slice. cbn [Nat.mul Nat.add Nat.sub]. 
  rewrite drop_0. do 2 f_equal.
  f_equal. change (200 + 100 - 200)%nat with 100%nat.
  apply take_ge. rewrite length_drop. lia.
Qed.

Lemma submit_three b1 b2 b3 cid key post :
  submit_batches [b1; b2; b3] cid key post =
  [(upload_single_batch 1 b1 cid key 3 (post 1%nat)).1;
   (upload_single_batch 2 b2 cid key 3 (post 2%nat)).1;
   (upload_single_batch 3 b3 cid key 3 (post 3%nat)).1].
Proof. reflexivity. Qed.

Lemma status_success_iff tf cid name tl vl tu :
  status (Result (if (tf =? 0)%Z then Success else Partial) cid name None
            None tl vl tu (Some tf)) = Success ↔ Some tf = Some 0%Z.
Proof.
  cbn. destruct (Z.eqb_spec tf 0) as [->|Hne]; [done|].
  split; [done | intros [= ?]; done].
Qed.

(** C7: 250 valid leads and batch size 100 give exactly three batches, of
    100, 100 and 50 leads, that are the valid leads in their original
    order; the destination is [success] exactly when no lead failed; and
    when batch 2 fails while batches 1 and 3 upload every lead, whatever
    the order of completion, the destination ends with uploaded = 150,
    failed = 100 and status [partial]. *)
Theorem batches_of_250_leads
    (leads : list lead) (campaign_id : option string)
    (campaign_name key : string) (post : nat → request → http_outcome)
    (completion : list (raising batch_result) → list (raising batch_result)) :
  let valid := filter (fun l => has_valid_email l = true) leads in
  let batches := make_batches valid 100 in
  let out := add_leads_to_campaign leads campaign_id campaign_name key 100
               post completion in
  length valid = 250%nat →
  (∀ l, completion l ≡ₚ l) →
  length <$> batches = [100; 100; 50]%nat
  ∧ concat batches = valid
  ∧ (∀ r, out = Returned r → (status r = Success ↔ failed r = Some 0%Z))
  ∧ ((∀ req, batch_succeeds_in_full (post 1%nat req)
               (Py.len (request_leads req))) →
     (∀ req, batch_fails (post 2%nat req)) →
     (∀ req, batch_succeeds_in_full (post 3%nat req)
               (Py.len (request_leads req))) →
     ∃ r, out = Returned r
          ∧ uploaded r = Some 150%Z ∧ failed r = Some 100%Z
          ∧ status r = Partial).
Proof.
  intros valid batches out Hlen Hperm.
  pose proof (make_batches_250 valid Hlen) as Hb. fold batches in Hb.
  assert (Hl1 : length (take 100 valid) = 100%nat)
    by (rewrite length_take; lia).
  assert (Hl2 : length (take 100 (drop 100 valid)) = 100%nat)
    by (rewrite length_take, length_drop; lia).
  assert (Hl3 : length (drop 200 valid) = 50%nat)
    by (rewrite length_drop; lia).
  assert (Hout : out =
            match collect (submit_batches batches campaign_id key post) with
            | Returned (tu, tf) =>
                Returned
                  (Result (if (tf =? 0)%Z then Success else Partial)
                     campaign_id campaign_name None None
                     (Some (Py.len leads)) (Some (Py.len valid))
                     (Some tu) (Some tf))
            | Raised => Raised
            end).
  { unfold out, add_leads_to_campaign. fold valid.
    destruct valid as [|v0 vs] eqn:Hv; [done|]. cbv iota. fold batches.
    by rewrite (collect_perm _ _ (Hperm _)). }
  split; [by rewrite Hb; cbn; rewrite Hl1, Hl2, Hl3|].
  split.
  { rewrite Hb. cbn. rewrite app_nil_r.
    rewrite <- (take_drop 100 valid) at 4.
    f_equal. rewrite <- (take_drop 100 (drop 100 valid)) at 2.
    f_equal. by rewrite drop_drop. }
  split.
  { intros r. rewrite Hout.
    destruct (collect _) as [[tu tf]|]; [|done].
    intros [= <-]. apply status_success_iff. }
  intros H1 H2 H3. rewrite Hout, Hb, collect_sums, submit_three.
  destruct (H1 (Request key campaign_id (format_lead <$> take 100 valid)))
    as (body1 & Hp1 & Hd1).
  destruct (H3 (Request key campaign_id (format_lead <$> drop 200 valid)))
    as (body3 & Hp3 & Hd3).
  rewrite (upload_result_200 _ _ _ _ _ _ body1 Hp1).
  rewrite (upload_result_200 _ _ _ _ _ _ body3 Hp3).
  rewrite (upload_result_failure _ _ _ _ _ _ (H2 _)).
  cbn [request_leads] in Hd1, Hd3. unfold Py.len in *.
  rewrite length_fmap in Hd1, Hd3. rewrite Hd1, Hd3.
  rewrite Hl1, Hl2, Hl3. cbn. eexists. split; [done|]. by cbn.
Qed.

Lemma batches_of_250_leads_witness :
  let leads : list lead := replicate 250 {[ "email" := "ann@example.com" ]} in
  let post (n : nat) (_ : request) :=
    if (n =? 2)%nat then Response 500 (Object None)
    else Response 200 (Object None) in
  length <$> make_batches (filter (fun l => has_valid_email l = true) leads) 100
    = [100; 100; 50]%nat
  ∧ ∃ r, add_leads_to_campaign leads (Some "c1") "Product A" "key" 100
           post reverse = Returned r
         ∧ uploaded r = Some 150%Z ∧ failed r = Some 100%Z
         ∧ status r = Partial.
Proof.
  intros leads post.
  destruct (batches_of_250_leads leads (Some "c1") "Product A" "key" post
              reverse) as (Hsizes & _ & _ & Hpartial).
  - by vm_compute.
  - intros l. apply reverse_Permutation.
  - split; [exact Hsizes|]. apply Hpartial.
    + intros req. exists None. split; reflexivity.
    + intros req. cbn. by left.
    + intros req. exists None. split; reflexivity.
Defined.
End BatchProofs.

(** ** The run over the destinations *)

Module RunProofs.
Import Delivery DeliverySpec BatchProofs.

Lemma count_status_snoc st rs r :
  count_status st (rs ++ [r]) =
  (count_status st rs + (if decide (status r = st) then 1 else 0))%Z.
Proof.
  unfold count_status, Py.len. rewrite filter_app, length_app, filter_cons.
  case_decide; cbn; lia.
Qed.

Lemma count_status_cons st rs r :
  count_status st (r :: rs) =
  ((if decide (status r = st) then 1 else 0) + count_status st rs)%Z.
Proof.
  unfold count_status, Py.len. rewrite filter_cons.
  case_decide; cbn [length]; lia.
Qed.

Ltac tally_eq :=
  unfold record_skip, record_error, skip_share; cbn;
  repeat case_decide; try done; f_equal; first [lia | reflexivity].

Lemma deliver_from_raised w key m pcs :
  deliver_from w key m Raised pcs = Raised.
Proof. unfold deliver_from. induction pcs as [|pc pcs IH]; [done | by cbn]. Qed.

Lemma deliver_from_cons w key m t pc pcs :
  deliver_from w key m (Returned t) (pc :: pcs) =
  deliver_from w key m (deliver w key m t pc) pcs.
Proof. reflexivity. Qed.

(** One destination: what [deliver] appends and adds, or that it dies. *)
Lemma deliver_step w key m t pc :
  (∃ r du df,
     deliver w key m t pc =
     Returned
       (Tally (results t ++ [r]) (total_uploaded t + du)
              (total_failed t + df) (total_skipped t + skip_share r))
     ∧ ((∀ l, completion w l ≡ₚ l) →
        df = failed_share (ending_of w key m pc)
        ∧ recorded r (ending_of w key m pc)))
  ∨ (deliver w key m t pc = Raised
     ∧ ((∀ l, completion w l ≡ₚ l) → ending_of w key m pc = Died)).
Proof.
  destruct pc as [position c]. unfold deliver, ending_of. cbn [fst snd].
  destruct (extract_segment_from_campaign_name _ m) as [id|].
  2:{ left.
      exists (skipped c "Could not identify segment from campaign name"),
        0%Z, 0%Z.
      split; [f_equal; tally_eq | done]. }
  destruct id as [|a id'].
  { left.
    exists (skipped c "Could not identify segment from campaign name"),
      0%Z, 0%Z.
    split; [f_equal; tally_eq | done]. }
  cbn [Py.truthy negb]. rewrite decide_False by done.
  destruct (segment_files w _) as [| |[|l0 ls]].
  - left. eexists (errored c _), 0%Z, 1%Z.
    split; [f_equal; tally_eq | by cbn; eauto].
  - left. eexists (errored c _), 0%Z, 1%Z.
    split; [f_equal; tally_eq | by cbn; eauto].
  - left. exists (skipped c "No leads in segment"), 0%Z, 0%Z.
    split; [f_equal; tally_eq | done].
  - rewrite decide_False by done.
    unfold add_leads_to_campaign.
    destruct (filter _ (l0 :: ls)) as [|v0 vs] eqn:Hvalid.
    + left. eexists (Result Error _ _ _ _ _ _ _ _), 0%Z, 0%Z.
      split; [f_equal; tally_eq | done].
    + rewrite decide_False by done. cbv iota.
      destruct (collect (completion w _)) as [[tu tf]|] eqn:Hc.
      * left.
        exists (Result (if (tf =? 0)%Z then Success else Partial) (c_id c)
                  (default "Unknown" (c_name c)) None None
                  (Some (Py.len (l0 :: ls))) (Some (Py.len (v0 :: vs)))
                  (Some tu) (Some tf)), tu, tf.
        split.
        -- unfold skip_share. cbn.
           destruct (tf =? 0)%Z; cbn; case_decide; try done;
             do 2 f_equal; lia.
        -- intros Hperm.
           rewrite (collect_perm _ _ (Hperm _)), collect_sums in Hc.
           destruct (mapM counted _) as [batches|]; [|done].
           injection Hc as <- <-. by cbn.
      * right. split; [done|]. intros Hperm.
        rewrite (collect_perm _ _ (Hperm _)), collect_sums in Hc.
        by destruct (mapM counted _).
Qed.

(** The loop over the destinations, when it comes to its end. *)
Lemma deliver_loop w key m pcs t t' :
  deliver_from w key m (Returned t) pcs = Returned t' →
  ∃ rs,
    results t' = results t ++ rs
    ∧ length rs = length pcs
    ∧ total_skipped t' = (total_skipped t + count_status Skipped rs)%Z
    ∧ ((∀ l, completion w l ≡ₚ l) →
       total_failed t' =
       (total_failed t
        + sumZ (failed_share <$> (ending_of w key m <$> pcs)))%Z
       ∧ Forall2 recorded rs (ending_of w key m <$> pcs)).
Proof.
  revert t. induction pcs as [|pc pcs IH]; intros t.
  - intros [= <-]. exists []. cbn. rewrite app_nil_r.
    split; [done|]. split; [done|].
    split; [unfold count_status, Py.len; cbn; lia|].
    intros _. split; [unfold sumZ; cbn; lia | constructor].
  - rewrite deliver_from_cons.
    destruct (deliver_step w key m t pc)
      as [(r & du & df & -> & Hstep)|[-> _]].
    2:{ by rewrite deliver_from_raised. }
    intros (rs & Hres & Hlen & Hskip & Hfail)%IH.
    exists (r :: rs). cbn in Hres, Hskip, Hfail.
    split; [by rewrite Hres, <- app_assoc|].
    split; [by cbn; rewrite Hlen|].
    split; [rewrite Hskip, count_status_cons; unfold skip_share; lia|].
    intros Hperm. destruct (Hstep Hperm) as [-> Hrec].
    destruct (Hfail Hperm) as [-> Hall].
    split; [|by constructor].
    rewrite !fmap_cons. unfold sumZ. cbn [foldr]. lia.
Qed.


(** A run that writes a report got through the configuration checks and
    through the loop. *)
Lemma completed_inv w rep :
  add_leads_to_campaigns_segmented w = Completed rep →
  ∃ key campaigns m t,
    api_key w = Some key ∧ campaigns_file w = Content campaigns
    ∧ segments_file w = Content m
    ∧ deliver_all w key m (successful campaigns) = Returned t
    ∧ rep = Report (if (total_failed t =? 0)%Z && (total_skipped t =? 0)%Z
                    then Success else Partial)
              (results t)
              (Summary (Py.len (successful campaigns)) (total_uploaded t)
                       (total_failed t) (total_skipped t)).
Proof.
  unfold add_leads_to_campaigns_segmented.
  destruct (api_key w) as [key|]; [|done].
  destruct (negb (Py.truthy key)); [done|].
  destruct (campaigns_file w) as [| |campaigns]; [done..|].
  destruct (successful campaigns) as [|c0 cs] eqn:Hs; [done|].
  destruct (segments_file w) as [| |m]; [done..|].
  destruct (deliver_all w key m (c0 :: cs)) as [t|] eqn:Ht; [|done].
  intros [= <-]. exists key, campaigns, m, t. rewrite Hs. by repeat split.
Qed.

Lemma endings_completed w key campaigns m :
  api_key w = Some key → campaigns_file w = Content campaigns →
  segments_file w = Content m →
  endings w = ending_of w key m <$> imap pair (successful campaigns).
Proof. unfold endings. by intros -> -> ->. Qed.

Lemma sum_failed_share (es : list ending) :
  sumZ (failed_share <$> es) =
  (sumZ (failed_leads <$> es) + Py.len (filter is_file_error es))%Z.
Proof.
  unfold sumZ, Py.len. induction es as [|e es IH]; [done|].
  rewrite !fmap_cons, filter_cons. cbn [foldr]. rewrite IH.
  case_decide as He; destruct e; cbn in He; try done;
    cbn [failed_share failed_leads length]; lia.
Qed.

(** C10: the report's [total_failed] is the sum, over the destinations
    that were delivered, of the failed counts of their batches, plus one
    for every destination whose segment file was missing or was not JSON;
    every other destination adds nothing, the one that ends in error for
    having no lead with a valid email included, whose entry carries no
    failed count at all. *)
Theorem total_failed_mixes_leads_and_destinations w rep :
  (∀ l, completion w l ≡ₚ l) →
  add_leads_to_campaigns_segmented w = Completed rep →
  summary_total_failed (report_summary rep) =
    (sumZ (failed_leads <$> endings w)
     + Py.len (filter is_file_error (endings w)))%Z
  ∧ Forall2 recorded (report_results rep) (endings w)
  ∧ failed_leads NoValidEmail = 0%Z ∧ ¬ is_file_error NoValidEmail.
Proof.
  intros Hperm
    (key & campaigns & m & t & Hkey & Hc & Hm & Ht & ->)%completed_inv.
  rewrite (endings_completed w key campaigns m) by done.
  cbn [report_summary summary_total_failed report_results].
  apply deliver_loop in Ht as (rs & -> & _ & _ & Hfail).
  destruct (Hfail Hperm) as [-> Hrec]. cbn [total_failed results app].
  rewrite sum_failed_share. split; [lia|]. split; [done|].
  split; [done | by intros []].
Qed.

Lemma total_failed_mixes_leads_and_destinations_witness :
  ∃ rep,
    add_leads_to_campaigns_segmented Examples.three_destinations
      = Completed rep
    ∧ summary_total_failed (report_summary rep) = 1%Z
    ∧ summary_total_failed (report_summary rep) =
      (sumZ (failed_leads <$> endings Examples.three_destinations)
       + Py.len (filter is_file_error
                   (endings Examples.three_destinations)))%Z.
Proof.
  eexists. split; [by vm_compute|]. split; [by vm_compute|].
  apply (total_failed_mixes_leads_and_destinations
           Examples.three_destinations).
  - intros l. apply reverse_Permutation.
  - by vm_compute.
Defined.

Lemma count_status_statuses st rs :
  count_status st rs = Py.len (filter (fun s => s = st) (status <$> rs)).
Proof.
  unfold count_status, Py.len. f_equal.
  induction rs as [|r rs IH]; [done|].
  rewrite fmap_cons, !filter_cons. case_decide; cbn; by rewrite IH.
Qed.

(** Every destination of the run is counted as processed, and the
    skipped ones are the entries of [results] with status [skipped]. *)
Lemma summary_counts w rep :
  add_leads_to_campaigns_segmented w = Completed rep →
  campaigns_processed (report_summary rep) = Py.len (report_results rep)
  ∧ campaigns_skipped (report_summary rep) =
    count_status Skipped (report_results rep).
Proof.
  intros (key & campaigns & m & t & Hkey & Hc & Hm & Ht & ->)%completed_inv.
  cbn [report_summary campaigns_processed campaigns_skipped report_results].
  apply deliver_loop in Ht as (rs & -> & Hlen & -> & _).
  cbn [results total_skipped app]. unfold Py.len.
  rewrite Hlen, length_imap. split; [done | lia].
Qed.

(** C2 as stated fails: with one destination skipped for want of a
    segment, one in error on a missing segment file and one delivered in
    two successful batches, [campaigns_processed] is 3, not 2. *)
Lemma campaigns_processed_is_not_two :
  ∃ rep,
    add_leads_to_campaigns_segmented Examples.three_destinations
      = Completed rep
    ∧ status <$> report_results rep = [Skipped; Error; Success]
    ∧ reason <$> report_results rep =
      [Some "Could not identify segment from campaign name";
       Some "Segment file not found: segment_marketing_leads.json"; None]
    ∧ uploaded <$> report_results rep = [None; None; Some 150%Z]
    ∧ campaigns_processed (report_summary rep) = 3%Z
    ∧ campaigns_processed (report_summary rep) ≠ 2%Z
    ∧ campaigns_skipped (report_summary rep) = 1%Z.
Proof. eexists. split; [by vm_compute|]. by vm_compute. Qed.

(** C2 as the code has it: [campaigns_processed] counts every
    destination of the run, the skipped ones included; for a run over
    three destinations of which one is skipped, one in error and one
    delivered with success, it is 3, and [campaigns_skipped] is 1. *)
Theorem campaigns_processed_counts_every_destination w rep :
  add_leads_to_campaigns_segmented w = Completed rep →
  status <$> report_results rep ≡ₚ [Skipped; Error; Success] →
  campaigns_processed (report_summary rep) = Py.len (report_results rep)
  ∧ campaigns_processed (report_summary rep) = 3%Z
  ∧ campaigns_skipped (report_summary rep) = 1%Z.
Proof.
  intros [Hp Hs]%summary_counts Hst.
  rewrite Hp, Hs, count_status_statuses. unfold Py.len.
  rewrite <- (length_fmap status (report_results rep)), Hst.
  by vm_compute.
Qed.

Lemma campaigns_processed_counts_every_destination_witness :
  ∃ rep,
    add_leads_to_campaigns_segmented Examples.three_destinations
      = Completed rep
    ∧ status <$> report_results rep ≡ₚ [Skipped; Error; Success]
    ∧ campaigns_processed (report_summary rep) = 3%Z
    ∧ campaigns_skipped (report_summary rep) = 1%Z.
Proof.
  eexists. split; [by vm_compute|].
  assert (∀ x y z : delivery_status, [x; y; z] ≡ₚ [x; y; z]) as Hrefl
    by reflexivity.
  split; [apply Hrefl|].
  apply (campaigns_processed_counts_every_destination
           Examples.three_destinations);
    [by vm_compute | apply Hrefl].
Defined.
End RunProofs.

(** ** The process exit contract *)

Module ExitProofs.
Import Delivery DeliverySpec BatchProofs RunProofs.

Lemma Forall_imap {A B} (P : B → Prop) (f : nat → A → B) (l : list A) :
  (∀ i x, P (f i x)) → Forall P (imap f l).
Proof.
  revert f. induction l as [|x l IH]; intros f Hf; cbn; constructor.
  - apply Hf.
  - apply IH. intros i y. apply Hf.
Qed.

Lemma sumZ_nonneg (l : list Z) :
  Forall (fun x => 0 ≤ x)%Z l → (0 ≤ sumZ l)%Z.
Proof. unfold sumZ. induction 1; cbn; lia. Qed.

Lemma counted_returned (future : raising batch_result) (r : batch_result) :
  counted future = Some r → future = Returned r.
Proof.
  destruct future as [[[n|] bf]|]; cbn; [|done..]. by intros [= <-].
Qed.

Lemma counted_failed_nonneg batches cid key post rs :
  mapM counted (submit_batches batches cid key post) = Some rs →
  Forall (fun r => 0 ≤ batch_failed r)%Z rs.
Proof.
  intros H%mapM_Some_1.
  assert (Hall : Forall (fun x => ∀ r, x = Returned r → 0 ≤ batch_failed r)%Z
                   (submit_batches batches cid key post)).
  { apply Forall_imap. intros i batch r. apply upload_failed_nonneg. }
  induction H as [|x r l rs Hx _ IH]; [constructor|].
  apply Forall_cons in Hall as [Hr Hall].
  constructor; [|by apply IH].
  by apply Hr, counted_returned.
Qed.

Lemma failed_share_nonneg w key m pc :
  (0 ≤ failed_share (ending_of w key m pc))%Z.
Proof.
  unfold ending_of.
  destruct (extract_segment_from_campaign_name _ m) as [id|]; [|done].
  case_decide; [done|].
  destruct (segment_files w _) as [| |leads]; [done..|].
  repeat (case_decide; [done|]).
  destruct (mapM counted _) as [rs|] eqn:Hrs; [|done].
  cbn [failed_share].
  by apply sumZ_nonneg, Forall_fmap, (counted_failed_nonneg _ _ _ _ _ Hrs).
Qed.

Lemma sumZ_zero (l : list Z) :
  Forall (fun x => 0 ≤ x)%Z l → sumZ l = 0%Z → Forall (fun x => x = 0%Z) l.
Proof.
  unfold sumZ. induction 1 as [|x l Hx Hl IH]; cbn; intros Hsum;
    constructor.
  - pose proof (sumZ_nonneg l Hl). unfold sumZ in *. lia.
  - apply IH. pose proof (sumZ_nonneg l Hl). unfold sumZ in *. lia.
Qed.

Lemma count_status_zero st rs :
  count_status st rs = 0%Z → Forall (fun r => status r ≠ st) rs.
Proof.
  induction rs as [|r rs IH]; [constructor|].
  rewrite count_status_cons.
  assert (0 ≤ count_status st rs)%Z by (unfold count_status, Py.len; lia).
  case_decide; [lia|]. intros Hz. constructor; [done|]. apply IH. lia.
Qed.

Lemma recorded_lets_exit_zero rs es :
  Forall2 recorded rs es →
  Forall (fun x => x = 0%Z) (failed_share <$> es) →
  Forall (fun r => status r ≠ Skipped) rs →
  Forall lets_exit_zero rs.
Proof.
  induction 1 as [|r e rs es Hr Hrs IH]; [constructor|].
  rewrite fmap_cons. intros [He Hes]%Forall_cons [Hs Hss]%Forall_cons.
  constructor; [|by apply IH].
  destruct e; cbn in Hr, He; try done.
  - by destruct Hr as [? _].
  - by destruct Hr as [? _].
  - right. by destruct Hr as (? & _ & ?).
  - left. destruct Hr as (_ & _ & ->). by rewrite He.
Qed.

(** X6: what exit code 0 does guarantee: every destination is [success],
    or is in [error] for having no lead with a valid email. *)
Lemma exit_zero_destinations w :
  (∀ l, completion w l ≡ₚ l) →
  exit_code (add_leads_to_campaigns_segmented w) = 0%Z →
  ∃ rep, add_leads_to_campaigns_segmented w = Completed rep
         ∧ Forall lets_exit_zero (report_results rep).
Proof.
  intros Hperm Hexit.
  destruct (add_leads_to_campaigns_segmented w) as [|rep|] eqn:Hrun;
    [done| |done].
  exists rep. split; [done|].
  pose proof Hrun
    as (key & campaigns & m & t & Hkey & Hc & Hm & Ht & ->)%completed_inv.
  cbn in Hexit |- *.
  apply deliver_loop in Ht as (rs & Hres & _ & Hskip & Hfail).
  destruct (Hfail Hperm) as [Hf Hrec].
  rewrite Hres. cbn [results app]. rewrite Hf, Hskip in Hexit.
  cbn [total_failed total_skipped] in Hexit.
  assert (Hnn : Forall (fun x => 0 ≤ x)%Z
            (failed_share <$>
               (ending_of w key m <$> imap pair (successful campaigns)))).
  { apply Forall_fmap, Forall_fmap, Forall_forall. intros pc _. cbn.
    apply failed_share_nonneg. }
  pose proof (sumZ_nonneg _ Hnn) as Hsum.
  assert (0 ≤ count_status Skipped rs)%Z
    by (unfold count_status, Py.len; lia).
  destruct (Z.eqb_spec
              (0 + sumZ (failed_share <$>
                 (ending_of w key m <$> imap pair (successful campaigns))))
              0) as [Hz|]; [|done].
  destruct (Z.eqb_spec (0 + count_status Skipped rs) 0) as [Hk|]; [|done].
  apply (recorded_lets_exit_zero rs _ Hrec).
  - apply sumZ_zero; [done | lia].
  - apply count_status_zero. lia.
Qed.

(** Configuration and required-input failures exit with code 1. *)
Lemma configuration_failure_exits_nonzero w :
  api_key w = None ∨ api_key w = Some ""
  ∨ campaigns_file w = FileNotFound ∨ campaigns_file w = InvalidJSON
  ∨ segments_file w = FileNotFound ∨ segments_file w = InvalidJSON →
  exit_code (add_leads_to_campaigns_segmented w) = 1%Z.
Proof.
  unfold add_leads_to_campaigns_segmented.
  intros [-> | [-> | [-> | [-> | [-> | ->]]]]]; try done;
    destruct (api_key w) as [key|]; try done;
    destruct (negb (Py.truthy key)); try done;
    destruct (campaigns_file w) as [| |campaigns]; try done;
    by destruct (successful campaigns).
Qed.

(** C1 fails on the code: the run over one destination whose segment
    file holds a single lead without an email address records that
    destination with status [error], yet reports [success] and exits
    with code 0. *)
Theorem exit_zero_with_errored_destination :
  ∃ rep r,
    add_leads_to_campaigns_segmented Examples.one_lead_without_email
      = Completed rep
    ∧ report_results rep = [r]
    ∧ status r = Error
    ∧ message r = Some "No leads with valid email addresses"
    ∧ summary_total_failed (report_summary rep) = 0%Z
    ∧ report_status rep = Success
    ∧ exit_code
        (add_leads_to_campaigns_segmented Examples.one_lead_without_email)
      = 0%Z.
Proof.
  eexists _, _. split; [by vm_compute|]. split; [reflexivity|].
  by vm_compute.
Qed.
End ExitProofs.

(** ** The Segment Assigner *)

Module AssignerProofs.
Import Segmenter.

Lemma unique_titles_from (acc : list string) (leads : list lead) :
  Forall (fun l => title_of l = "") leads →
  foldl (fun job_titles l =>
           let job_title := title_of l in
           if Py.truthy job_title && negb (Py.mem job_title job_titles)
           then job_titles ++ [job_title]
           else job_titles) acc leads = acc.
Proof.
  induction 1 as [|l leads Hl _ IH]; [done|].
  cbn [foldl].
  match goal with
  | |- foldl ?f ?a leads = acc =>
      assert (a = acc) as -> by (cbn; by rewrite Hl)
  end.
  exact IH.
Qed.

Lemma split_untitled (acc leads : list lead) :
  foldl (split_lead ∅) (∅, acc) leads = (∅, acc ++ leads).
Proof.
  revert acc. induction leads as [|l leads IH]; intros acc.
  - by rewrite app_nil_r.
  - cbn [foldl]. unfold split_lead at 2. rewrite lookup_empty, IH.
    by rewrite <- app_assoc.
Qed.

Lemma unique_titles_none (leads : list lead) :
  Forall (fun l => title_of l = "") leads → unique_titles leads = [].
Proof. apply unique_titles_from. Qed.

Lemma assign_untitled (w : world) (min_segment_size : Z)
    (l0 : lead) (ls : list lead) :
  Forall (fun l => title_of l = "") (l0 :: ls) →
  (1 ≤ min_segment_size)%Z →
  let st := assign w min_segment_size (l0 :: ls) in
  filtered_segments st = [] ∧ written st = []
  ∧ output_dir st = output_dir_exists w
  ∧ segment_leads st !! "exec" = Some (l0 :: ls).
Proof.
  intros Hall Hmin. unfold assign.
  rewrite (unique_titles_none _ Hall).
  cbn [define_segments]. change (build_title_to_segment general_only) with
    (∅ : gmap string string).
  rewrite split_untitled. cbn [app].
  unfold general_only. cbn [foldl]. unfold filter_segment.
  cbn [segment_id segment_leads].
  unfold dd_extend, dd_get. rewrite lookup_empty.
  rewrite lookup_insert_ne by done. rewrite lookup_insert_ne by done.
  rewrite lookup_empty.
  change (Py.len []) with 0%Z.
  destruct (Z.geb_spec 0 min_segment_size) as [|_]; [lia|].
  cbn [Z.gtb Z.compare]. cbn [segment_leads output_dir filtered_segments written].
  rewrite lookup_insert_ne by done. by rewrite lookup_insert_eq.
Qed.

(** X18: with no title at all in a non-empty lead set and a minimum size
    of at least 1, the general segment made for the occasion has no lead
    and is filtered out, so that no file is written before the exec
    partition is saved.  When the output directory exists, the manifest
    is emitted with no segment and every lead is written to the exec
    partition; when it does not, the run dies on that file, which it
    opens without making the directory: nothing is written and no
    manifest is emitted. *)
Lemma no_title_no_segment (w : world) (min_segment_size : Z)
    (key : string) (leads : list lead) :
  api_key w = Some key → Py.truthy key = true →
  input_file w = Content leads → leads ≠ [] →
  Forall (fun l => title_of l = "") leads →
  (1 ≤ min_segment_size)%Z →
  segment_by_job_title w min_segment_size =
  if output_dir_exists w
  then Succeeded (Mapping [] (Py.len leads) 0)
                 [("segment_exec_leads.json", leads)]
  else Crashed [].
Proof.
  intros Hkey Htruthy Hfile Hne Hall Hmin.
  unfold segment_by_job_title. rewrite Hkey, Htruthy, Hfile. cbn [negb].
  destruct leads as [|l0 ls]; [done|].
  destruct (assign_untitled w min_segment_size l0 ls Hall Hmin)
    as (Hsegs & Hfiles & Hdir & Hexec).
  cbv zeta. unfold resave_exec. rewrite Hexec, Hdir, Hsegs, Hfiles.
  by destruct (output_dir_exists w).
Qed.

(** A segment that reaches the minimum size is kept with its count and
    its partition is written to its own file. *)
Lemma filter_segment_kept (n : Z) (st : assigner) (seg : segment) :
  let leads_in_segment := default [] (segment_leads st !! segment_id seg) in
  (n ≤ Py.len leads_in_segment)%Z →
  let st' := filter_segment n st seg in
  filtered_segments st' =
    filtered_segments st ++ [with_lead_count seg (Some (Py.len leads_in_segment))]
  ∧ written st' =
    written st ++ [(segment_file (segment_id seg), leads_in_segment)].
Proof.
  intros leads_in_segment Hn st'. unfold st', filter_segment.
  assert (Hget : dd_get (segment_id seg) (segment_leads st) =
                 (leads_in_segment,
                  match segment_leads st !! segment_id seg with
                  | Some _ => segment_leads st
                  | None => <[segment_id seg := []]> (segment_leads st)
                  end)).
  { unfold dd_get, leads_in_segment.
    by destruct (segment_leads st !! segment_id seg). }
  rewrite Hget.
  by destruct (Z.geb_spec (Py.len leads_in_segment) n) as [_|]; [|lia].
Qed.

(** A segment with leads, but fewer than the minimum, gets no file of
    its own; the manifest gains at most an exec entry. *)
Lemma filter_segment_merged (n : Z) (st : assigner) (seg : segment) :
  let leads_in_segment := default [] (segment_leads st !! segment_id seg) in
  (0 < Py.len leads_in_segment < n)%Z →
  let st' := filter_segment n st seg in
  written st' = written st
  ∧ default [] (segment_leads st' !! "exec") =
    default [] (segment_leads st !! "exec") ++ leads_in_segment
  ∧ (segment_id <$> filtered_segments st' = segment_id <$> filtered_segments st
     ∨ segment_id <$> filtered_segments st' =
       (segment_id <$> filtered_segments st) ++ ["exec"]).
Proof.
  intros leads_in_segment Hn st'. unfold st', filter_segment.
  assert (Hget : dd_get (segment_id seg) (segment_leads st) =
                 (leads_in_segment,
                  match segment_leads st !! segment_id seg with
                  | Some _ => segment_leads st
                  | None => <[segment_id seg := []]> (segment_leads st)
                  end)).
  { unfold dd_get, leads_in_segment.
    by destruct (segment_leads st !! segment_id seg). }
  rewrite Hget.
  destruct (Z.geb_spec (Py.len leads_in_segment) n) as [|_]; [lia|].
  destruct (Z.gtb_spec (Py.len leads_in_segment) 0) as [_|]; [|lia].
  assert (Hexec : ∀ d : partitions,
            default [] (dd_extend "exec" leads_in_segment d !! "exec") =
            default [] (d !! "exec") ++ leads_in_segment).
  { intros d. unfold dd_extend, dd_get.
    destruct (d !! "exec") eqn:Hd; by rewrite lookup_insert_eq. }
  assert (Hsame : default []
            (match segment_leads st !! segment_id seg with
             | Some _ => segment_leads st
             | None => <[segment_id seg := []]> (segment_leads st)
             end !! "exec") = default [] (segment_leads st !! "exec")).
  { destruct (segment_leads st !! segment_id seg) eqn:Hs; [done|].
    destruct (decide (segment_id seg = "exec")) as [He|He].
    - rewrite He in *. by rewrite lookup_insert_eq, Hs.
    - by rewrite lookup_insert_ne. }
  destruct (bump_exec _ (filtered_segments st)) as [filtered|] eqn:Hb;
    cbn [written segment_leads filtered_segments].
  - split; [done|]. split; [by rewrite Hexec, Hsame|]. left.
    clear -Hb. revert filtered Hb.
    induction (filtered_segments st) as [|s rest IH]; intros filtered Hb;
      [done|].
    cbn in Hb. destruct (is_exec s).
    + by injection Hb as <-.
    + destruct (bump_exec _ rest) as [rest'|]; [|done].
      injection Hb as <-. cbn. f_equal. by apply IH.
  - split; [done|]. split; [by rewrite Hexec, Hsame|]. right.
    by rewrite fmap_app.
Qed.

Ltac evaluate := vm_compute; reflexivity.
Ltac decide_by_evaluation := apply (bool_decide_unpack _); vm_compute; exact I.

(** The scenario of C4: segments exec = [CEO] and operations = [COO],
    minimum size 10, five leads titled COO and none titled CEO.  No
    operations file is written, the five leads are the exec partition and
    the manifest holds exec alone, with [lead_count] 5. *)
Lemma five_coos_merge_into_exec :
  let out := segment_by_job_title Examples.five_coos 10 in
  exit_code out = 0%Z
  ∧ file_after (files_of out) (segment_file "operations") = None
  ∧ file_after (files_of out) (segment_file "exec")
    = Some (replicate 5 (Examples.titled "COO"))
  ∧ (fun m => (fun s => (segment_id s, lead_count s)) <$> segments m)
      <$> manifest_of out
    = Some [("exec", Some 5%Z)].
Proof.
  cbv zeta. split; [evaluate|]. split; [decide_by_evaluation|].
  split; [decide_by_evaluation | evaluate].
Qed.

(** C3 fails on the code: ten leads titled CEO and one titled COO, the
    keyword fallback and a minimum size of 10.  The fallback puts COO in
    an operations segment; that segment is merged into the exec entry
    already in the manifest, whose [job_titles] are left as they were: the
    emitted manifest has the single segment exec with titles [CEO], and
    the title COO, which a lead of the exec partition carries, is in no
    segment. *)
Theorem merged_titles_are_orphaned :
  let out := segment_by_job_title Examples.ten_ceos_one_coo 10 in
  (fun s => (segment_id s, job_titles s))
    <$> fallback_segmentation ["CEO"; "COO"]
  = [("exec", ["CEO"]); ("operations", ["COO"])]
  ∧ (fun m => (fun s => (segment_id s, job_titles s, lead_count s))
                <$> segments m) <$> manifest_of out
    = Some [("exec", ["CEO"], Some 11%Z)]
  ∧ file_after (files_of out) (segment_file "exec")
    = Some (replicate 10 (Examples.titled "CEO") ++ [Examples.titled "COO"])
  ∧ title_of (Examples.titled "COO") = "COO"
  ∧ (∀ m, manifest_of out = Some m →
          "COO" ∉ concat (job_titles <$> segments m)).
Proof.
  cbv zeta. split; [evaluate|]. split; [evaluate|].
  split; [decide_by_evaluation|]. split; [evaluate|].
  intros m Hm.
  assert (Hsegs : (fun m => job_titles <$> segments m)
                    <$> manifest_of
                          (segment_by_job_title Examples.ten_ceos_one_coo 10)
                  = Some [["CEO"]]) by evaluate.
  rewrite Hm in Hsegs. injection Hsegs as ->.
  cbn. by intros [=]%list_elem_of_singleton.
Qed.

(** C4 fails on the code: three leads titled CEO, the keyword fallback,
    a minimum size of 10 and an output directory that exists.  The exec
    segment is below the minimum and is merged into the exec partition,
    which is its own list of leads: the partition is extended with
    itself.  The exec file holds six leads, each of the three twice, and
    the manifest reports [lead_count] 6 for a run over 3 leads. *)
Theorem small_exec_segment_is_doubled :
  let out := segment_by_job_title Examples.three_ceos 10 in
  let leads := replicate 3 (Examples.titled "CEO") in
  input_file Examples.three_ceos = Content leads
  ∧ total_leads <$> manifest_of out = Some 3%Z
  ∧ (fun m => (fun s => (segment_id s, lead_count s)) <$> segments m)
      <$> manifest_of out
    = Some [("exec", Some 6%Z)]
  ∧ fst <$> files_of out = ["segment_exec_leads.json"]
  ∧ file_after (files_of out) (segment_file "exec") = Some (leads ++ leads).
Proof.
  cbv zeta. split; [reflexivity|]. split; [evaluate|]. split; [evaluate|].
  split; [evaluate | decide_by_evaluation].
Qed.

(** C5 fails on the code: for one lead without a title, a minimum size
    of 10 and an output directory that exists the run succeeds, but the
    manifest it emits has no segment at all; the lead is written to an
    exec partition that the manifest does not list. *)
Theorem no_title_manifest_is_empty :
  let out := segment_by_job_title Examples.one_lead_without_title 10 in
  title_of (Examples.with_email "ann@example.com") = ""
  ∧ exit_code out = 0%Z
  ∧ segments <$> manifest_of out = Some []
  ∧ total_segments <$> manifest_of out = Some 0%Z
  ∧ files_of out = [("segment_exec_leads.json",
                     [Examples.with_email "ann@example.com"])].
Proof.
  cbv zeta. split; [evaluate|]. split; [evaluate|]. split; [evaluate|].
  split; [evaluate | decide_by_evaluation].
Qed.
End AssignerProofs.

(** ** Batches of any size *)

Module BatchingProofs.
Import Delivery DeliverySpec BatchProofs.

Lemma range_step_count (n step : nat) :
  (0 < step)%nat → (0 < n)%nat →
  ((n + step - 1) / step = S ((n - step + step - 1) / step))%nat.
Proof.
  intros Hs Hn. destruct (decide (n < step)%nat) as [Hlt|Hge].
  - replace (n - step)%nat with 0%nat by lia. cbn [Nat.add].
    rewrite (Nat.div_small (step - 1) step) by lia.
    symmetry. apply (Nat.div_unique _ _ _ (n - 1)); lia.
  - replace (n + step - 1)%nat with ((n - step + step - 1) + 1 * step)%nat
      by lia.
    rewrite Nat.div_add by lia. lia.
Qed.

Lemma make_batches_nil (step : nat) : make_batches [] step = [].
Proof.
  unfold make_batches, Py.range_step. cbn [length Nat.add].
  destruct step as [|step]; [done|].
  by rewrite Nat.div_small by lia.
Qed.

(** The first batch is the first [step] leads; the others are the batches
    of the rest. *)
Lemma make_batches_cons (l : list lead) (step : nat) :
  (0 < step)%nat → l ≠ [] →
  make_batches l step = take step l :: make_batches (drop step l) step.
Proof.
  intros Hs Hl. unfold make_batches, Py.range_step.
  assert (0 < length l)%nat by (destruct l; [done | cbn; lia]).
  rewrite range_step_count; [|done..]. rewrite length_drop.
  cbn [seq fmap list_fmap]. f_equal.
  - unfold Py.slice. cbn [Nat.mul Nat.add]. rewrite drop_0. f_equal. lia.
  - rewrite <- seq_shift, <- !list_fmap_compose.
    apply list_fmap_ext. intros _ k _. cbn. unfold Py.slice.
    rewrite drop_drop. f_equal; try lia; try (f_equal; lia).
Qed.

Lemma make_batches_ind (step : nat) (P : list lead → Prop) :
  (0 < step)%nat →
  P [] →
  (∀ l, l ≠ [] → P (drop step l) → P l) →
  ∀ l, P l.
Proof.
  intros Hs Hnil Hcons l.
  remember (length l) as n eqn:Hn. revert l Hn.
  induction n as [n IH] using lt_wf_ind. intros l Hn.
  destruct l as [|x l']; [done|].
  apply Hcons; [done|].
  apply (IH (length (drop step (x :: l')))); [|done].
  rewrite length_drop. cbn in *. lia.
Qed.


(** X1: for any positive batch size the batches are the valid leads cut in
    order: concatenated they give the list back, none is empty, none is
    longer than the batch size, and there are ceil(n / size) of them. *)
Theorem make_batches_partition (l : list lead) (step : nat) :
  (0 < step)%nat →
  concat (make_batches l step) = l
  ∧ Forall (fun b => (0 < length b ≤ step)%nat) (make_batches l step)
  ∧ length (make_batches l step) = ((length l + step - 1) / step)%nat.
Proof.
  intros Hs. pattern l. apply (make_batches_ind step); [done| |]; clear l.
  2: intros l Hl (IH1 & IH2 & IH3).
  - rewrite make_batches_nil. split; [done|]. split; [constructor|].
    cbn. destruct step; [lia|]. by rewrite Nat.div_small by lia.
  - rewrite make_batches_cons by done. split; [|split].
    + cbn. by rewrite IH1, take_drop.
    + constructor; [|done]. rewrite length_take.
      destruct l; [done | cbn; lia].
    + cbn. rewrite IH3, length_drop.
      assert (0 < length l)%nat by (destruct l; [done | cbn; lia]).
      rewrite (range_step_count (length l)); done.
Qed.

Lemma make_batches_partition_witness :
  let l := replicate 7 (Examples.with_email "ann@example.com") in
  concat (make_batches l 3) = l
  ∧ length <$> make_batches l 3 = [3; 3; 1]%nat.
Proof.
  intros l. split.
  - apply (make_batches_partition l 3). lia.
  - apply (bool_decide_unpack _). vm_compute. exact I.
Defined.










End BatchingProofs.

(** ** The report and the destinations *)

Module ReportProofs.
Import Delivery DeliverySpec DeliveryTerms BatchProofs RunProofs.

(** The entry [deliver] appends: it carries the id and the name of the
    campaign, and its [uploaded] count is what [total_uploaded] gains. *)
Lemma deliver_entry w key m t t' (pc : nat * campaign) :
  deliver w key m t pc = Returned t' →
  ∃ r,
    results t' = results t ++ [r]
    ∧ campaign_id r = c_id pc.2
    ∧ campaign_name r = default "Unknown" (c_name pc.2)
    ∧ total_uploaded t' = (total_uploaded t + default 0%Z (uploaded r))%Z.
Proof.
  destruct pc as [position c]. unfold deliver. cbn [fst snd].
  destruct (extract_segment_from_campaign_name _ m) as [id|].
  2:{ intros [= <-]. eexists. split; [reflexivity|]. cbn.
      repeat split; lia. }
  destruct (negb (Py.truthy id)).
  { intros [= <-]. eexists. split; [reflexivity|]. cbn. repeat split; lia. }
  destruct (segment_files w _) as [| |[|l0 ls]];
    try (intros [= <-]; eexists; split; [reflexivity|]; cbn;
         repeat split; lia).
  unfold add_leads_to_campaign.
  destruct (filter _ (l0 :: ls)).
  { intros [= <-]. eexists. split; [reflexivity|]. by cbn. }
  cbv iota. destruct (collect _) as [[tu tf]|]; [|done].
  intros [= <-]. eexists. split; [reflexivity|]. by cbn.
Qed.

Lemma deliver_entries w key m (pcs : list (nat * campaign)) t t' :
  deliver_from w key m (Returned t) pcs = Returned t' →
  ∃ rs,
    results t' = results t ++ rs
    ∧ campaign_id <$> rs = (fun pc => c_id pc.2) <$> pcs
    ∧ campaign_name <$> rs =
      (fun pc => default "Unknown" (c_name pc.2)) <$> pcs
    ∧ total_uploaded t' =
      (total_uploaded t + sumZ ((fun r => default 0%Z (uploaded r)) <$> rs))%Z.
Proof.
  revert t. induction pcs as [|pc pcs IH]; intros t.
  - intros [= <-]. exists []. cbn. rewrite app_nil_r. unfold sumZ. cbn.
    repeat split; lia.
  - rewrite deliver_from_cons.
    destruct (deliver w key m t pc) as [t1|] eqn:Hstep.
    2:{ by rewrite deliver_from_raised. }
    destruct (deliver_entry w key m t t1 pc Hstep)
      as (r & Hr & Hid & Hname & Hup).
    intros (rs & Hrs & Hids & Hnames & Hups)%IH.
    exists (r :: rs). rewrite Hrs, Hr, <- app_assoc. split; [done|].
    rewrite !fmap_cons, Hids, Hnames, Hid, Hname. split; [done|].
    split; [done|]. rewrite Hups, Hup. unfold sumZ. cbn. lia.
Qed.

Lemma fmap_imap_pair_snd {A B} (f : A → B) (l : list A) :
  (fun pc : nat * A => f pc.2) <$> imap pair l = f <$> l.
Proof.
  change (imap pair l) with (imap (fun i x => (0 + i, x)%nat) l).
  generalize 0%nat as k.
  induction l as [|x l IH]; intros k; [done|].
  cbn. f_equal. rewrite <- (IH (S k)). f_equal.
  apply imap_ext. intros i y _. cbn. f_equal. lia.
Qed.

(** X4: the report has one entry for each campaign of the campaigns file
    whose status is success, in the order of the file, under the id and the
    name of that campaign (the name "Unknown" when it has none), whatever
    became of the delivery. *)
Theorem results_follow_campaigns w rep :
  add_leads_to_campaigns_segmented w = Completed rep →
  ∃ campaigns,
    campaigns_file w = Content campaigns
    ∧ campaign_id <$> report_results rep = c_id <$> successful campaigns
    ∧ campaign_name <$> report_results rep =
      (fun c => default "Unknown" (c_name c)) <$> successful campaigns.
Proof.
  intros (key & campaigns & m & t & Hkey & Hc & Hm & Ht & ->)%completed_inv.
  exists campaigns. split; [done|]. cbn [report_results].
  apply deliver_entries in Ht as (rs & -> & Hids & Hnames & _).
  cbn [results app]. rewrite Hids, Hnames.
  by rewrite (fmap_imap_pair_snd c_id),
    (fmap_imap_pair_snd (fun c => default "Unknown" (c_name c))).
Qed.

Lemma results_follow_campaigns_witness :
  ∃ rep,
    add_leads_to_campaigns_segmented Examples.three_destinations
      = Completed rep
    ∧ campaign_id <$> report_results rep = [Some "c1"; Some "c2"; Some "c3"].
Proof.
  eexists. split; [vm_compute; reflexivity|].
  destruct (results_follow_campaigns Examples.three_destinations _ eq_refl)
    as (campaigns & Hc & Hids & _).
  injection Hc as <-. exact Hids.
Defined.

(** X5: [total_uploaded] of the summary is the sum of the [uploaded]
    counts of the entries that have one; skipped and errored destinations
    add nothing. *)
Theorem total_uploaded_is_sum w rep :
  add_leads_to_campaigns_segmented w = Completed rep →
  summary_total_uploaded (report_summary rep) =
  sumZ ((fun r => default 0%Z (uploaded r)) <$> report_results rep).
Proof.
  intros (key & campaigns & m & t & Hkey & Hc & Hm & Ht & ->)%completed_inv.
  cbn [report_results report_summary summary_total_uploaded].
  apply deliver_entries in Ht as (rs & -> & _ & _ & ->).
  cbn [results total_uploaded app]. lia.
Qed.

Lemma total_uploaded_is_sum_witness :
  ∃ rep,
    add_leads_to_campaigns_segmented Examples.three_destinations
      = Completed rep
    ∧ summary_total_uploaded (report_summary rep) = 150%Z
    ∧ summary_total_uploaded (report_summary rep) =
      sumZ ((fun r => default 0%Z (uploaded r)) <$> report_results rep).
Proof.
  eexists. split; [vm_compute; reflexivity|]. split; [vm_compute; reflexivity|].
  by apply (total_uploaded_is_sum Examples.three_destinations).
Defined.






(** X8: a manifest segment whose name is empty matches every destination
    name: with such a segment in the manifest the matcher returns a
    segment id (never [None]) for every destination name, and when that
    segment comes first it returns its id. *)
Theorem empty_segment_name_matches_everything
    (name : string) (segs : list segment) (seg : segment) :
  segment_name seg = "" → seg ∈ segs →
  extract_segment_from_campaign_name name segs ≠ None
  ∧ ∀ rest, extract_segment_from_campaign_name name (seg :: rest)
            = Some (segment_id seg).
Proof.
  intros Hname Hin. split.
  - intros Hnone%MatcherProofs.extract_none.
    unfold none_matches in Hnone. rewrite Forall_forall in Hnone.
    apply (Hnone seg Hin). rewrite Hname. by exists "", name.
  - intros rest. cbn. rewrite Hname.
    assert (Py.contains "" name = true) as ->; [|done].
    apply contains_spec. by exists "", name.
Qed.

Lemma empty_segment_name_matches_everything_witness :
  extract_segment_from_campaign_name "Product A - Unknown Segment"
    [Segment "general" "" [] "" None] = Some "general".
Proof.
  apply (empty_segment_name_matches_everything _
           [Segment "general" "" [] "" None]
           (Segment "general" "" [] "" None)); [reflexivity | by left].
Defined.
End ReportProofs.

(** ** The lead objects sent to the platform *)

Module FormatProofs.
Import Delivery DeliverySpec.

Lemma drop_empty_lookup (fields : list (string * option string))
    (k v : string) :
  NoDup fields.*1 →
  drop_empty fields !! k = Some v ↔
  (k, Some v) ∈ fields ∧ Py.truthy v = true.
Proof.
  unfold drop_empty. induction fields as [|[k0 v0] fields IH].
  - intros _. cbn. rewrite lookup_empty, elem_of_nil. naive_solver.
  - rewrite fmap_cons, NoDup_cons. cbn [fst]. intros [Hk0 Hnd].
    specialize (IH Hnd). rewrite elem_of_cons.
    assert (Hfresh : ∀ x, (k0, x) ∉ fields).
    { intros x Hx. apply Hk0, list_elem_of_fmap. by exists (k0, x). }
    cbn [omap list_omap].
    destruct v0 as [s|]; [destruct (Py.truthy s) eqn:Hs|].
    + cbn [list_to_map foldr uncurry].
      destruct (decide (k0 = k)) as [->|Hk].
      * rewrite lookup_insert_eq. split.
        -- intros [= ->]. split; [by left | done].
        -- intros [[[= ->]|Hin] Hv]; [done|]. by destruct (Hfresh (Some v)).
      * rewrite lookup_insert_ne by done. rewrite IH. split.
        -- intros [? ?]. split; [by right | done].
        -- intros [[[= ? ?]|Hin] Hv]; [done|]. done.
    + rewrite IH. split.
      * intros [? ?]. split; [by right | done].
      * intros [[[= -> ->]|Hin] Hv]; [congruence | done].
    + rewrite IH. split.
      * intros [? ?]. split; [by right | done].
      * intros [[[= ? ?]|Hin] Hv]; done.
Qed.

Lemma truthy_nonempty (s : string) : Py.truthy s = true ↔ s ≠ "".
Proof. by destruct s. Qed.

Lemma valid_email_inv (email : option string) :
  is_valid_email email = true ↔ ∃ e, email = Some e ∧ Substring "@" e.
Proof.
  unfold is_valid_email. destruct email as [e|].
  - rewrite andb_true_iff, contains_spec. split.
    + intros [_ H]. by exists e.
    + intros (e' & [= <-] & H). split; [|done].
      destruct H as (pre & post & ->). by destruct pre.
  - split; [done | by intros (e & ? & _)].
Qed.

(** X9: the lead object sent to the platform has no empty value and no
    key besides email, first_name, last_name, company_name, website and
    personalization; personalization repeats company_name; a normalized
    company name, when the lead has a non-empty one, is the company name
    sent; and a lead that passes the email filter is sent with its email,
    which contains an at sign. *)
Theorem format_lead_fields (l : lead) :
  (∀ k v, format_lead l !! k = Some v →
          v ≠ ""
          ∧ k ∈ ["email"; "first_name"; "last_name"; "company_name";
                 "website"; "personalization"])
  ∧ format_lead l !! "personalization" = format_lead l !! "company_name"
  ∧ (∀ n, l !! "company_name_normalized" = Some n → n ≠ "" →
          format_lead l !! "company_name" = Some n)
  ∧ (has_valid_email l = true →
     ∃ e, format_lead l !! "email" = Some e ∧ Substring "@" e
          ∧ Py.or_ (l !! "email") (l !! "contact_email") = Some e).
Proof.
  unfold format_lead.
  set (email := Py.or_ (l !! "email") (l !! "contact_email")).
  set (first_name := Py.or_str _ ""). set (last_name := Py.or_str _ "").
  set (company_name := Py.or_str (Py.or_ (Py.or_ _ _) _) "").
  set (website := Py.or_str _ "").
  set (fields := [("email", email); _; _; _; _; _]).
  assert (Hnd : NoDup fields.*1).
  { apply (bool_decide_unpack _). by vm_compute. }
  pose proof (fun k v => drop_empty_lookup fields k v Hnd) as Hlook.
  split; [|split; [|split]].
  - intros k v [Hin Hv]%Hlook. split; [by apply truthy_nonempty|].
    unfold fields in Hin. rewrite !elem_of_cons, elem_of_nil in Hin.
    rewrite !elem_of_cons.
    destruct Hin as [[= -> _]|[[= -> _]|[[= -> _]|[[= -> _]|[[= -> _]|
                      [[= -> _]|[]]]]]]]; eauto 10.
  - destruct (drop_empty fields !! "company_name") as [v|] eqn:Hc.
    + apply Hlook in Hc as [Hin Hv]. apply Hlook. split; [|done].
      unfold fields in *. rewrite !elem_of_cons, elem_of_nil in Hin.
      destruct Hin as [[= ?]|[[= ?]|[[= ?]|[[= Hv']|[[= ?]|[[= ?]|[]]]]]]].
      rewrite Hv'. rewrite !elem_of_cons. eauto 10.
    + destruct (drop_empty fields !! "personalization") as [v|] eqn:Hp;
        [|done].
      apply Hlook in Hp as [Hin Hv].
      assert (drop_empty fields !! "company_name" = Some v) as Hc';
        [|congruence].
      apply Hlook. split; [|done].
      unfold fields in *. rewrite !elem_of_cons, elem_of_nil in Hin.
      destruct Hin as [[= ?]|[[= ?]|[[= ?]|[[= ?]|[[= ?]|[[= Hv']|[]]]]]]].
      rewrite Hv'. rewrite !elem_of_cons. eauto 10.
  - intros n Hn Hne. apply Hlook. split; [|by apply truthy_nonempty].
    assert (company_name = n) as ->.
    { unfold company_name, Py.or_str, Py.or_. rewrite Hn.
      apply truthy_nonempty in Hne. do 3 (cbn; rewrite ?Hne). done. }
    unfold fields. rewrite !elem_of_cons. eauto 10.
  - unfold has_valid_email. fold email.
    intros (e & He & Hat)%valid_email_inv. exists e.
    split; [|by split]. apply Hlook. split.
    + unfold fields. rewrite He. by left.
    + destruct Hat as (pre & post & ->). by destruct pre.
Qed.

Lemma format_lead_fields_witness :
  let l : lead := {[ "contact_email" := "ann@example.com" ]} in
  ∃ e, format_lead l !! "email" = Some e ∧ Substring "@" e.
Proof.
  intros l.
  destruct (format_lead_fields l) as (_ & _ & _ & Hemail).
  destruct Hemail as (e & He & Hat & _); [vm_compute; reflexivity|].
  by exists e.
Defined.
End FormatProofs.

(** ** Exit code 0 on a concrete run *)

Module ExitWitnesses.
Import Delivery DeliverySpec.

Lemma exit_zero_destinations_witness :
  ∃ rep,
    add_leads_to_campaigns_segmented Examples.one_lead_without_email
      = Completed rep
    ∧ Forall lets_exit_zero (report_results rep).
Proof.
  apply ExitProofs.exit_zero_destinations.
  - intros l. apply reverse_Permutation.
  - vm_compute. reflexivity.
Defined.
End ExitWitnesses.

(** ** Titles and the title lookup *)

Module TitleProofs.
Import Segmenter SegmenterSpec SegmenterTerms.

Lemma unique_titles_from_spec (leads : list lead) (acc : list string) :
  let out :=
    foldl (fun job_titles l =>
             let job_title := title_of l in
             if Py.truthy job_title && negb (Py.mem job_title job_titles)
             then job_titles ++ [job_title]
             else job_titles) acc leads in
  (NoDup acc → NoDup out)
  ∧ ∀ t, t ∈ out ↔ t ∈ acc ∨ (t ≠ "" ∧ ∃ l, l ∈ leads ∧ title_of l = t).
Proof.
  revert acc. induction leads as [|l leads IH]; intros acc; cbn [foldl].
  - split; [done|]. intros t. split; [by left|].
    intros [?|(_ & l & []%elem_of_nil & _)]. done.
  - cbv zeta. destruct (Py.truthy (title_of l)) eqn:Ht; cbn [andb].
    + unfold Py.mem. case_bool_decide as Hin; cbn [negb].
      * destruct (IH acc) as [Hnd Hmem]. split; [done|].
        intros t. rewrite Hmem. split.
        -- intros [?|(Hne & l' & Hl' & <-)]; [by left|].
           right. split; [done|]. exists l'. split; [by right | done].
        -- intros [?|(Hne & l' & Hl' & <-)]; [by left|].
           apply elem_of_cons in Hl' as [->|Hl']; [by left|].
           right. split; [done|]. by exists l'.
      * destruct (IH (acc ++ [title_of l])) as [Hnd Hmem]. split.
        -- intros Hacc. apply Hnd, NoDup_app. split; [done|].
           split; [|apply NoDup_singleton].
           intros x Hx ->%list_elem_of_singleton. done.
        -- intros t. rewrite Hmem, elem_of_app, list_elem_of_singleton. split.
           ++ intros [[?| ->]|(Hne & l' & Hl' & <-)]; [by left| |].
              ** right. split; [by destruct (title_of l)|].
                 exists l. split; [by left | done].
              ** right. split; [done|]. exists l'. split; [by right | done].
           ++ intros [?|(Hne & l' & Hl' & <-)]; [by left; left|].
              apply elem_of_cons in Hl' as [->|Hl']; [by left; right|].
              right. split; [done|]. by exists l'.
    + destruct (IH acc) as [Hnd Hmem]. split; [done|].
      intros t. rewrite Hmem. split.
      * intros [?|(Hne & l' & Hl' & <-)]; [by left|].
        right. split; [done|]. exists l'. split; [by right | done].
      * intros [?|(Hne & l' & Hl' & <-)]; [by left|].
        apply elem_of_cons in Hl' as [->|Hl'].
        -- by destruct (title_of l).
        -- right. split; [done|]. by exists l'.
Qed.

(** X10: the titles handed to the classifier have no duplicate and are
    exactly the non-empty titles that some lead carries, the title of a
    lead being its [job_title], or its [title] when that is absent or
    empty. *)
Theorem unique_titles_spec (leads : list lead) :
  NoDup (unique_titles leads)
  ∧ (∀ t, t ∈ unique_titles leads ↔
          t ≠ "" ∧ ∃ l, l ∈ leads ∧ title_of l = t)
  ∧ (∀ l t, l !! "job_title" = Some t → t ≠ "" → title_of l = t)
  ∧ (∀ l t, l !! "job_title" = None ∨ l !! "job_title" = Some "" →
            l !! "title" = Some t → title_of l = t).
Proof.
  destruct (unique_titles_from_spec leads []) as [Hnd Hmem].
  split; [apply Hnd, NoDup_nil_2|]. split; [|split].
  - intros t. unfold unique_titles. rewrite Hmem, elem_of_nil. naive_solver.
  - intros l t Ht Hne. unfold title_of. rewrite Ht.
    destruct t; [done|]. reflexivity.
  - intros l t Hj Ht. unfold title_of. rewrite Ht.
    destruct Hj as [-> | ->]; cbn; by destruct t.
Qed.

Lemma insert_titles_lookup (id : string) (titles : list string)
    (m : gmap string string) (k : string) :
  foldl (fun m title => <[Py.lower title := id]> m) m titles !! k =
  if decide (k ∈ Py.lower <$> titles) then Some id else m !! k.
Proof.
  revert m. induction titles as [|t titles IH]; intros m; cbn [foldl].
  - rewrite decide_False; [done|]. by intros ?%elem_of_nil.
  - rewrite IH, fmap_cons. case_decide as Hrest.
    + rewrite decide_True; [done | by right].
    + destruct (decide (Py.lower t = k)) as [<-|Hne].
      * rewrite lookup_insert_eq, decide_True; [done | by left].
      * rewrite lookup_insert_ne by done. rewrite decide_False; [done|].
        by intros [?|?]%elem_of_cons.
Qed.

Lemma lists_title_fmap (k : string) (seg : segment) :
  lists_title k seg ↔ k ∈ Py.lower <$> job_titles seg.
Proof.
  unfold lists_title. rewrite list_elem_of_fmap. naive_solver.
Qed.

Lemma table_from (segs : list segment) (m : gmap string string) (k : string) :
  Forall (fun seg => ¬ lists_title k seg) segs →
  foldl (fun m seg =>
           foldl (fun m title => <[Py.lower title := segment_id seg]> m)
                 m (job_titles seg)) m segs !! k = m !! k.
Proof.
  revert m. induction segs as [|seg segs IH]; intros m Hall; [done|].
  apply Forall_cons in Hall as [Hseg Hall]. cbn [foldl].
  rewrite IH by done. rewrite insert_titles_lookup.
  rewrite decide_False; [done|]. by rewrite <- lists_title_fmap.
Qed.

(** X11: the title lookup is keyed by the lower-cased title and, when
    several segments list a title with the same lower-case form, gives the
    id of the last of them in manifest order; it has no entry exactly for
    the keys that no segment lists. *)
Theorem title_lookup_last_segment_wins (segs : list segment) (k : string) :
  (∀ before seg after,
     segs = before ++ seg :: after → lists_title k seg →
     Forall (fun s => ¬ lists_title k s) after →
     build_title_to_segment segs !! k = Some (segment_id seg))
  ∧ (build_title_to_segment segs !! k = None ↔
     Forall (fun s => ¬ lists_title k s) segs).
Proof.
  unfold build_title_to_segment. split.
  - intros before seg after -> Hseg Hafter.
    rewrite foldl_app. cbn [foldl]. rewrite table_from by done.
    rewrite insert_titles_lookup.
    rewrite decide_True; [done | by apply lists_title_fmap].
  - split.
    + induction segs as [|seg segs IH] using rev_ind; [constructor|].
      rewrite foldl_app. cbn [foldl]. rewrite insert_titles_lookup.
      case_decide as Hseg; [done|]. intros Hnone.
      apply Forall_app. split; [by apply IH|].
      constructor; [|done]. by rewrite lists_title_fmap.
    + intros Hall. rewrite table_from by done. apply lookup_empty.
Qed.

Lemma title_lookup_last_segment_wins_witness :
  build_title_to_segment
    [Segment "exec" "Executive Leadership" ["Owner"] "" None;
     Segment "operations" "Operations Leadership" ["OWNER"] "" None]
    !! "owner" = Some "operations".
Proof.
  destruct (title_lookup_last_segment_wins
              [Segment "exec" "Executive Leadership" ["Owner"] "" None;
               Segment "operations" "Operations Leadership" ["OWNER"] "" None]
              "owner") as [Hlast _].
  apply (Hlast [Segment "exec" "Executive Leadership" ["Owner"] "" None]
               (Segment "operations" "Operations Leadership" ["OWNER"] "" None)
               []).
  - reflexivity.
  - exists "OWNER". split; [by left | reflexivity].
  - constructor.
Defined.

(** X15: every segment the keyword fallback defines has at least one
    title, an id among exec, operations, marketing, sales, technical and
    general, and no [lead_count] yet; there are at most six of them. *)
Theorem fallback_segments_are_proper (titles : list string) :
  Forall (fun s => job_titles s ≠ [] ∧ lead_count s = None
                   ∧ ∃ b, segment_id s = bucket_id b)
         (fallback_segmentation titles)
  ∧ (length (fallback_segmentation titles) ≤ 6)%nat.
Proof.
  assert (Hrest : Forall (fun s => job_titles s ≠ [] ∧ lead_count s = None
                                   ∧ ∃ b, segment_id s = bucket_id b)
                    (rest4 titles)).
  { apply Forall_forall. intros s. unfold rest4.
    rewrite !elem_of_app, !FallbackProofs.elem_of_seg_of.
    intros [[? ->]|[[? ->]|[[? ->]|[? ->]]]]; cbn;
      (split; [done|]; split; [done|]);
      [by exists Operations | by exists Marketing | by exists Sales
      | by exists Technical]. }
  assert (Hlen : (length (rest4 titles) ≤ 4)%nat).
  { unfold rest4. rewrite !length_app.
    unfold seg_of.
    destruct (titles_in Operations titles), (titles_in Marketing titles),
      (titles_in Sales titles), (titles_in Technical titles); cbn; lia. }
  destruct (FallbackProofs.fallback_shape titles)
    as [(HGn & HEn & ->)|[(HGn & HEn & ->)|[(HGn & Habs & ->)|
        [(HGn & HEn & ->)|(HGn & HEn & Habs & ->)]]]].
  - split; [done | lia].
  - split; [|cbn; lia]. constructor; [|done]. cbn.
    split; [done|]. split; [done|]. by exists Exec.
  - split; [|cbn; lia]. constructor; [|done]. cbn.
    destruct Habs as [_ HE]. split; [|split; [done | by exists Exec]].
    by destruct (titles_in Exec titles).
  - split; [|rewrite length_app; cbn; lia].
    apply Forall_app. split; [done|]. constructor; [|done]. cbn.
    split; [done|]. split; [done|]. by exists General.
  - split; [|cbn; rewrite length_app; cbn; lia].
    constructor.
    + cbn. split; [done|]. split; [done|]. by exists Exec.
    + apply Forall_app. split; [done|]. constructor; [|done]. cbn.
      split; [done|]. split; [done|]. by exists General.
Qed.

Lemma no_title_no_segment_witness :
  let leads := [Examples.with_email "ann@example.com"] in
  segment_by_job_title
    (World (Some "key") (Content leads) (fun _ => None) true) 10
  = Succeeded (Mapping [] 1 0) [("segment_exec_leads.json", leads)]
  ∧ segment_by_job_title
      (World (Some "key") (Content leads) (fun _ => None) false) 10
    = Crashed [].
Proof.
  intros leads.
  assert (Huntitled : Forall (fun l => title_of l = "") leads).
  { constructor; [vm_compute; reflexivity | constructor]. }
  split.
  - by rewrite (AssignerProofs.no_title_no_segment
                  (World (Some "key") (Content leads) (fun _ => None) true)
                  10 "key" leads).
  - by rewrite (AssignerProofs.no_title_no_segment
                  (World (Some "key") (Content leads) (fun _ => None) false)
                  10 "key" leads).
Defined.
End TitleProofs.

(** ** What the Segment Assigner writes *)

Module PartitionProofs.
Import Segmenter SegmenterTerms PartitionTerms.

Lemma string_length_app (a b : string) :
  String.length (String.app a b) = (String.length a + String.length b)%nat.
Proof.
  induction a as [|c a IH]; [done|].
  change (String.app (String c a) b) with (String c (String.app a b)).
  cbn. by rewrite IH.
Qed.

Lemma app_suffix_inj (a b s : string) :
  String.app a s = String.app b s → a = b.
Proof.
  revert b. induction a as [|c a IH]; intros [|d b] H.
  - done.
  - apply (f_equal String.length) in H.
    rewrite !string_length_app in H. cbn in H. lia.
  - apply (f_equal String.length) in H.
    rewrite !string_length_app in H. cbn in H. lia.
  - change (String c (String.app a s) = String d (String.app b s)) in H.
    injection H as -> H. f_equal. by apply IH.
Qed.

Lemma segment_file_inj (a b : string) :
  segment_file a = segment_file b → a = b.
Proof.
  unfold segment_file. intros H%(inj (String.app "segment_")).
  by apply app_suffix_inj in H.
Qed.

Lemma file_after_snoc (files : list (string * list lead)) (n : string)
    (c : list lead) (name : string) :
  file_after (files ++ [(n, c)]) name =
  if decide (n = name) then Some c else file_after files name.
Proof.
  unfold file_after. rewrite reverse_snoc, filter_cons. cbn [fst].
  destruct (decide (n = name)) as [Heq|Hne].
  - rewrite decide_True by (by apply bool_decide_pack). done.
  - rewrite decide_False by (by intros ?%bool_decide_unpack). done.
Qed.

Lemma is_exec_spec (s : segment) : is_exec s = true ↔ segment_id s = "exec".
Proof. unfold is_exec. apply String.eqb_eq. Qed.

Lemma dd_get_fst (k : string) (d : partitions) : (dd_get k d).1 = part d k.
Proof. unfold dd_get, part. by destruct (d !! k). Qed.

Lemma dd_get_snd (k k' : string) (d : partitions) :
  part (dd_get k d).2 k' = part d k'.
Proof.
  unfold dd_get, part. destruct (d !! k) eqn:Hk; [done|]. cbn.
  destruct (decide (k = k')) as [<-|Hne].
  - by rewrite lookup_insert_eq, Hk.
  - by rewrite lookup_insert_ne.
Qed.

Lemma part_dd_extend (k k' : string) (xs : list lead) (d : partitions) :
  part (dd_extend k xs d) k' =
  if decide (k = k') then part d k ++ xs else part d k'.
Proof.
  unfold dd_extend. pose proof (dd_get_fst k d) as H1.
  pose proof (dd_get_snd k k' d) as H2.
  destruct (dd_get k d) as [v d']. cbn in H1, H2. subst v.
  unfold part at 1. destruct (decide (k = k')) as [<-|Hne].
  - by rewrite lookup_insert_eq.
  - rewrite lookup_insert_ne by done. exact H2.
Qed.

Lemma part_dd_append (k k' : string) (x : lead) (d : partitions) :
  part (dd_append k x d) k' =
  if decide (k = k') then part d k ++ [x] else part d k'.
Proof. apply (part_dd_extend k k' [x] d). Qed.

Lemma part_empty (k : string) : part ∅ k = [].
Proof. unfold part. by rewrite lookup_empty. Qed.

(** *** The split of the leads *)

Lemma split_leads_spec (tts : gmap string string) (leads : list lead)
    (p : partitions) (u : list lead) :
  let r := foldl (split_lead tts) (p, u) leads in
  (∀ l, l ∈ leads → l ∈ r.2 ∨ ∃ k, l ∈ part r.1 k)
  ∧ (∀ l, l ∈ u → l ∈ r.2)
  ∧ (∀ l k, l ∈ part p k → l ∈ part r.1 k)
  ∧ (∀ k, part r.1 k ≠ [] → part p k ≠ [] ∨ ∃ t, tts !! t = Some k)
  ∧ (∀ l k, l ∈ part r.1 k → l ∈ part p k ∨ l ∈ leads)
  ∧ (∀ l, l ∈ r.2 → l ∈ u ∨ l ∈ leads).
Proof.
  revert p u. induction leads as [|x leads IH]; intros p u; cbn [foldl].
  - cbn. repeat split; eauto. by intros l ?%elem_of_nil.
  - set (step := split_lead tts (p, u) x).
    assert (Hstep :
      (x ∈ step.2 ∨ ∃ k, x ∈ part step.1 k)
      ∧ (∀ l, l ∈ u → l ∈ step.2)
      ∧ (∀ l k, l ∈ part p k → l ∈ part step.1 k)
      ∧ (∀ k, part step.1 k ≠ [] → part p k ≠ [] ∨ ∃ t, tts !! t = Some k)
      ∧ (∀ l k, l ∈ part step.1 k → l ∈ part p k ∨ l = x)
      ∧ (∀ l, l ∈ step.2 → l ∈ u ∨ l = x)).
    { unfold step, split_lead.
      destruct (tts !! _) as [id|] eqn:Hid; [destruct (Py.truthy id)|];
        cbn [fst snd].
      - split; [right; exists id; rewrite part_dd_append, decide_True by done;
                apply elem_of_app; right; by left|].
        split; [done|]. split; [|split; [|split]].
        + intros l k Hl. rewrite part_dd_append. case_decide as Hk; [|done].
          subst k. apply elem_of_app. by left.
        + intros k. rewrite part_dd_append. case_decide as Hk; [|by left].
          subst k. intros _. right. eauto.
        + intros l k. rewrite part_dd_append. case_decide as Hk; [|by left].
          subst k. intros [?|?%list_elem_of_singleton]%elem_of_app; eauto.
        + eauto.
      - split; [left; apply elem_of_app; right; by left|].
        split; [intros l Hl; apply elem_of_app; by left|].
        split; [done|]. split; [by left|]. split; [by left|].
        intros l [?|?%list_elem_of_singleton]%elem_of_app; eauto.
      - split; [left; apply elem_of_app; right; by left|].
        split; [intros l Hl; apply elem_of_app; by left|].
        split; [done|]. split; [by left|]. split; [by left|].
        intros l [?|?%list_elem_of_singleton]%elem_of_app; eauto. }
    clearbody step. destruct step as [p' u'].
    destruct Hstep as (Hx & Hu & Hp & Hk & Hp' & Hu').
    destruct (IH p' u') as (I1 & I2 & I3 & I4 & I5 & I6).
    cbn [fst snd] in *. split; [|split; [|split; [|split; [|split]]]].
    + intros l [->|Hl]%elem_of_cons; [|by apply I1].
      destruct Hx as [?|[k ?]]; [left; by apply I2 | right; exists k; by apply I3].
    + intros l Hl. by apply I2, Hu.
    + intros l k Hl. by apply I3, Hp.
    + intros k Hne. destruct (I4 k Hne) as [Hp'k|?]; [|by right].
      by apply Hk.
    + intros l k Hl. destruct (I5 l k Hl) as [Hl'|?]; [|right; by right].
      destruct (Hp' l k Hl') as [?| ->]; [by left | right; by left].
    + intros l Hl. destruct (I6 l Hl) as [Hl'|?]; [|right; by right].
      destruct (Hu' l Hl') as [?| ->]; [by left | right; by left].
Qed.

Lemma table_values (segs : list segment) (m : gmap string string)
    (t id : string) :
  foldl (fun m seg =>
           foldl (fun m title => <[Py.lower title := segment_id seg]> m)
                 m (job_titles seg)) m segs !! t = Some id →
  m !! t = Some id ∨ ∃ seg, seg ∈ segs ∧ segment_id seg = id.
Proof.
  revert m. induction segs as [|seg segs IH]; intros m; cbn [foldl];
    [by left|].
  intros [H|(seg' & Hin & Hid)]%IH.
  - rewrite TitleProofs.insert_titles_lookup in H.
    case_decide; [|by left]. injection H as <-. right. exists seg.
    split; [by left | done].
  - right. exists seg'. split; [by right | done].
Qed.

(** Every lead is in a partition the loop starts from, the partitions
    hold leads of the input only, and a partition other than exec that
    holds a lead is the one of a defined segment. *)
Lemma split_partitions_spec (w : world) (leads : list lead) :
  (∀ l, l ∈ leads → ∃ k, l ∈ part (split_partitions w leads) k)
  ∧ (∀ l k, l ∈ part (split_partitions w leads) k → l ∈ leads)
  ∧ (∀ k, k ≠ "exec" → part (split_partitions w leads) k ≠ [] →
          ∃ seg, seg ∈ define_segments w (unique_titles leads)
                 ∧ segment_id seg = k).
Proof.
  unfold split_partitions. cbv zeta.
  set (defs := define_segments w (unique_titles leads)).
  pose proof (split_leads_spec (build_title_to_segment defs) leads ∅ [])
    as Hsplit.
  destruct (foldl _ _ leads) as [p u]. cbn [fst snd] in Hsplit.
  destruct Hsplit as (H1 & _ & _ & H4 & H5 & H6).
  assert (Hdefs : ∀ k, part p k ≠ [] →
            ∃ seg, seg ∈ defs ∧ segment_id seg = k).
  { intros k Hk. destruct (H4 k Hk) as [Hempty|[t Ht]].
    - by rewrite part_empty in Hempty.
    - apply table_values in Ht as [Ht|?]; [|done].
      by rewrite lookup_empty in Ht. }
  destruct u as [|u0 us].
  - split; [|split].
    + intros l Hl. destruct (H1 l Hl) as [[]%elem_of_nil|?]. done.
    + intros l k Hl. destruct (H5 l k Hl) as [Hl'|?]; [|done].
      rewrite part_empty in Hl'. by apply elem_of_nil in Hl'.
    + intros k _. apply Hdefs.
  - split; [|split].
    + intros l Hl. destruct (H1 l Hl) as [Hu|[k Hk]].
      * exists "exec". rewrite part_dd_extend, decide_True by done.
        apply elem_of_app. by right.
      * exists k. rewrite part_dd_extend. case_decide as Hke; [|done].
        subst k. apply elem_of_app. by left.
    + intros l k. rewrite part_dd_extend.
      assert (Hp : l ∈ part p k → l ∈ leads).
      { intros Hl. destruct (H5 l k Hl) as [Hl'|?]; [|done].
        rewrite part_empty in Hl'. by apply elem_of_nil in Hl'. }
      assert (Hpe : l ∈ part p "exec" → l ∈ leads).
      { intros Hl. destruct (H5 l "exec" Hl) as [Hl'|?]; [|done].
        rewrite part_empty in Hl'. by apply elem_of_nil in Hl'. }
      case_decide; [|done].
      intros [?|Hu]%elem_of_app; [by apply Hpe|].
      by destruct (H6 l Hu) as [[]%elem_of_nil|?].
    + intros k Hk. rewrite part_dd_extend, decide_False by done.
      apply Hdefs.
Qed.

Lemma assign_unfold (w : world) (n : Z) (leads : list lead) :
  assign w n leads =
  foldl (filter_segment n)
        (Assigner [] (split_partitions w leads) [] 0 (output_dir_exists w))
        (define_segments w (unique_titles leads)).
Proof.
  unfold assign, split_partitions. cbv zeta.
  by destruct (foldl (split_lead _) _ leads) as [p u].
Qed.
End PartitionProofs.

(** ** The filter loop of the Segment Assigner *)

Module LoopProofs.
Import Segmenter SegmenterTerms PartitionTerms PartitionProofs.

Lemma bump_exec_some (n : Z) (fs fs' : list segment) :
  bump_exec n fs = Some fs' →
  (∀ s, s ∈ fs' → segment_id s ≠ "exec" → s ∈ fs)
  ∧ ∃ s, s ∈ fs ∧ segment_id s = "exec".
Proof.
  revert fs'. induction fs as [|x fs IH]; intros fs'; cbn; [done|].
  destruct (is_exec x) eqn:Hx.
  - intros [= <-]. split.
    + intros s [->|Hs]%elem_of_cons Hne; [|by right].
      apply is_exec_spec in Hx. by destruct Hne.
    + exists x. split; [by left | by apply is_exec_spec].
  - destruct (bump_exec n fs) as [rest|]; [|done]. intros [= <-].
    destruct (IH rest eq_refl) as [Hkeep (s & Hs & Hid)]. split.
    + intros s' [->|Hs']%elem_of_cons Hne; [by left|]. right. by apply Hkeep.
    + exists s. split; [by right | done].
Qed.

Lemma set_exec_count_keeps (n : Z) (fs : list segment) (s : segment) :
  s ∈ set_exec_count n fs → segment_id s ≠ "exec" → s ∈ fs.
Proof.
  induction fs as [|x fs IH]; cbn; [done|].
  destruct (is_exec x) eqn:Hx.
  - intros [->|Hs]%elem_of_cons Hne; [|by right].
    apply is_exec_spec in Hx. by destruct Hne.
  - intros [->|Hs]%elem_of_cons Hne; [by left|]. right. by apply IH.
Qed.

Lemma set_exec_count_first (n : Z) (fs before after : list segment)
    (s : segment) :
  set_exec_count n fs = before ++ s :: after →
  segment_id s = "exec" →
  Forall (fun x => segment_id x ≠ "exec") before →
  lead_count s = Some n.
Proof.
  revert before. induction fs as [|x fs IH]; intros before; cbn.
  - by destruct before.
  - destruct (is_exec x) eqn:Hx.
    + destruct before as [|b before]; cbn.
      * by intros [= <- _].
      * intros [= <- _] _ [Hb _]%Forall_cons.
        apply is_exec_spec in Hx. by destruct Hb.
    + destruct before as [|b before]; cbn.
      * intros [= <- _] Hs. apply is_exec_spec in Hs. congruence.
      * intros [= <- H] Hs [_ Hbefore]%Forall_cons. by apply (IH before).
Qed.

Lemma set_exec_count_has_exec (n : Z) (fs : list segment) (s : segment) :
  s ∈ set_exec_count n fs → segment_id s = "exec" →
  ∃ s', s' ∈ fs ∧ segment_id s' = "exec".
Proof.
  induction fs as [|x fs IH]; cbn; [by intros ?%elem_of_nil|].
  destruct (is_exec x) eqn:Hx.
  - intros _ _. exists x. split; [by left | by apply is_exec_spec].
  - intros [->|Hs]%elem_of_cons Hid.
    + exists x. split; [by left | done].
    + destruct (IH Hs Hid) as (s' & ? & ?). exists s'. split; [by right|done].
Qed.

(** The three ways of an iteration of the filter loop. *)
Lemma filter_segment_spec (n : Z) (st : assigner) (seg : segment) :
  let k := segment_id seg in
  let ls := part (segment_leads st) k in
  let st' := filter_segment n st seg in
  ((n ≤ Py.len ls)%Z
   ∧ filtered_segments st' =
     filtered_segments st ++ [with_lead_count seg (Some (Py.len ls))]
   ∧ written st' = written st ++ [(segment_file k, ls)]
   ∧ ∀ k', part (segment_leads st') k' = part (segment_leads st) k')
  ∨ ((0 < Py.len ls < n)%Z
     ∧ written st' = written st
     ∧ (∀ k', part (segment_leads st') k' =
              if decide ("exec" = k')
              then part (segment_leads st) "exec" ++ ls
              else part (segment_leads st) k')
     ∧ (bump_exec (Py.len ls) (filtered_segments st)
          = Some (filtered_segments st')
        ∨ filtered_segments st' =
          filtered_segments st ++
          [Segment "exec" "Executive Leadership" (job_titles seg)
             "Revenue growth and strategic outcomes" (Some (Py.len ls))]))
  ∨ ((Py.len ls < n)%Z ∧ ls = []
     ∧ filtered_segments st' = filtered_segments st
     ∧ written st' = written st
     ∧ ∀ k', part (segment_leads st') k' = part (segment_leads st) k').
Proof.
  intros k ls st'. unfold st', filter_segment.
  pose proof (dd_get_fst k (segment_leads st)) as H1.
  pose proof (fun k' => dd_get_snd k k' (segment_leads st)) as H2.
  fold k. destruct (dd_get k (segment_leads st)) as [v d'].
  cbn [fst snd] in H1, H2. subst v. fold ls.
  destruct (Z.geb_spec (Py.len ls) n) as [Hge|Hlt].
  { left. by repeat split. }
  destruct (Z.gtb_spec (Py.len ls) 0) as [Hpos|Hzero].
  - right; left. split; [lia|].
    assert (Hparts : ∀ k', part (dd_extend "exec" ls d') k' =
              if decide ("exec" = k')
              then part (segment_leads st) "exec" ++ ls
              else part (segment_leads st) k').
    { intros k'. rewrite part_dd_extend. by rewrite !H2. }
    destruct (bump_exec (Py.len ls) (filtered_segments st)) as [fs'|] eqn:Hb;
      cbn [written segment_leads filtered_segments]; eauto.
  - right; right. split; [lia|]. split; [|by repeat split].
    unfold Py.len in Hzero. destruct ls; [done | cbn in Hzero; lia].
Qed.

Lemma loop_inv_start (n : Z) (start : partitions) (dir : bool) :
  loop_inv n start [] (Assigner [] start [] 0 dir).
Proof.
  unfold loop_inv. cbn. split; [done|]. split; [done|].
  split; [by intros seg l ?%elem_of_nil|]. split; [done|].
  split; [by intros s ?%elem_of_nil|].
  by intros _ (s & ?%elem_of_nil & _).
Qed.

Lemma loop_inv_step (n : Z) (start : partitions) (processed : list segment)
    (st : assigner) (seg : segment) :
  loop_inv n start processed st →
  loop_inv n start (processed ++ [seg]) (filter_segment n st seg).
Proof.
  intros (I1 & I2 & I3 & I4 & I5 & I6).
  assert (Hfile : ∀ k c name,
            is_Some (file_after (written st) name) →
            is_Some (file_after (written st ++ [(k, c)]) name)).
  { intros k c name H. rewrite file_after_snoc. by case_decide. }
  destruct (filter_segment_spec n st seg)
    as [(Hn & Hf & Hw & Hp)|[(Hn & Hw & Hp & Hf)|(Hn & Hls & Hf & Hw & Hp)]].
  - (* kept *)
    unfold loop_inv. rewrite Hf, Hw.
    split; [|split; [|split; [|split; [|split]]]].
    + intros k Hk. rewrite Hp. by apply I1.
    + intros l Hl. rewrite Hp. by apply I2.
    + intros seg' l [Hin| ->%list_elem_of_singleton]%elem_of_app Hid Hl.
      * rewrite Hp. destruct (I3 seg' l Hin Hid Hl) as [?|?]; [by left|].
        right. by apply Hfile.
      * right. rewrite file_after_snoc, decide_True by done. eauto.
    + intros k c Hk. rewrite file_after_snoc. case_decide as Hname.
      * apply segment_file_inj in Hname. intros [= <-]. rewrite Hname.
        by apply I1.
      * by apply I4.
    + intros s [Hin| ->%list_elem_of_singleton]%elem_of_app Hid.
      * destruct (I5 s Hin Hid) as ((seg' & Hseg' & Hs) & Hmin & Hsome).
        split; [|split; [done | by apply Hfile]].
        exists seg'. split; [apply elem_of_app; by left | done].
      * cbn in Hid |- *. rewrite <- (I1 _ Hid). split; [|split; [done|]].
        -- exists seg. split; [apply elem_of_app; right; by left | done].
        -- rewrite file_after_snoc, decide_True by done. eauto.
    + intros Hmin (s & [Hin| ->%list_elem_of_singleton]%elem_of_app & Hid).
      * rewrite Hp. apply I6; eauto.
      * cbn in Hid. rewrite Hp, <- Hid. intros Hnil. rewrite Hnil in Hn.
        unfold Py.len in Hn. cbn in Hn. lia.
  - (* merged *)
    unfold loop_inv. rewrite Hw.
    split; [|split; [|split; [|split; [|split]]]].
    + intros k Hk. rewrite Hp, decide_False by done. by apply I1.
    + intros l Hl. rewrite Hp, decide_True by done. apply elem_of_app.
      left. by apply I2.
    + intros seg' l [Hin| ->%list_elem_of_singleton]%elem_of_app Hid Hl.
      * destruct (I3 seg' l Hin Hid Hl) as [?|?]; [|by right].
        left. rewrite Hp, decide_True by done. apply elem_of_app. by left.
      * left. rewrite Hp, decide_True by done. apply elem_of_app. right.
        by rewrite (I1 _ Hid).
    + done.
    + intros s Hin Hid.
      assert (s ∈ filtered_segments st) as Hold.
      { destruct Hf as [Hb|Hf].
        - by apply (bump_exec_some _ _ _ Hb).
        - rewrite Hf in Hin.
          apply elem_of_app in Hin as [?| ->%list_elem_of_singleton]; [done|].
          by destruct Hid. }
      destruct (I5 s Hold Hid) as ((seg' & Hseg' & Hs) & Hmin & Hsome).
      split; [|done]. exists seg'. split; [apply elem_of_app; by left | done].
    + intros _ _. rewrite Hp, decide_True by done. intros Hnil.
      apply app_eq_nil in Hnil as [_ Hnil]. rewrite Hnil in Hn.
      unfold Py.len in Hn. cbn in Hn. lia.
  - (* passed over *)
    unfold loop_inv. rewrite Hf, Hw.
    split; [|split; [|split; [|split; [|split]]]].
    + intros k Hk. rewrite Hp. by apply I1.
    + intros l Hl. rewrite Hp. by apply I2.
    + intros seg' l [Hin| ->%list_elem_of_singleton]%elem_of_app Hid Hl.
      * rewrite Hp. by apply I3.
      * rewrite <- (I1 _ Hid), Hls in Hl. by apply elem_of_nil in Hl.
    + done.
    + intros s Hin Hid.
      destruct (I5 s Hin Hid) as ((seg' & Hseg' & Hs) & Hmin & Hsome).
      split; [|done]. exists seg'. split; [apply elem_of_app; by left | done].
    + intros Hmin Hex. rewrite Hp. by apply I6.
Qed.

Lemma loop_inv_all (n : Z) (start : partitions) (processed rest : list segment)
    (st : assigner) :
  loop_inv n start processed st →
  loop_inv n start (processed ++ rest) (foldl (filter_segment n) st rest).
Proof.
  revert processed st. induction rest as [|seg rest IH]; intros processed st H.
  - by rewrite app_nil_r.
  - cbn [foldl].
    change (processed ++ seg :: rest) with (processed ++ [seg] ++ rest).
    rewrite (assoc_L (++) processed [seg] rest).
    apply IH. by apply loop_inv_step.
Qed.


(** The last step: the exec partition, when it holds a lead, is written,
    if the directory exists, and its size becomes the [lead_count] of the
    first exec entry; the step raises if the directory does not exist. *)
Lemma resave_exec_spec (st : assigner) :
  let e := part (segment_leads st) "exec" in
  (e = [] ∧ resave_exec st = Returned st)
  ∨ (e ≠ [] ∧ output_dir st = false ∧ resave_exec st = Raised)
  ∨ (e ≠ [] ∧ output_dir st = true
     ∧ ∃ st', resave_exec st = Returned st'
        ∧ segment_leads st' = segment_leads st
        ∧ filtered_segments st' =
          set_exec_count (Py.len e) (filtered_segments st)
        ∧ written st' = written st ++ [("segment_exec_leads.json", e)]).
Proof.
  unfold resave_exec, part.
  destruct (segment_leads st !! "exec") as [[|x e]|]; cbn; eauto.
  destruct (output_dir st); [|by eauto].
  right; right. split; [done|]. split; [done|]. eexists. by split.
Qed.
End LoopProofs.

(** ** The partitions and the manifest of a run *)

Module OutputProofs.
Import Segmenter SegmenterTerms PartitionTerms PartitionProofs LoopProofs.

Lemma origin_inv_step (n : Z) (start : partitions) (st : assigner)
    (seg : segment) :
  origin_inv start st → origin_inv start (filter_segment n st seg).
Proof.
  intros [O1 O2].
  destruct (filter_segment_spec n st seg)
    as [(Hn & Hf & Hw & Hp)|[(Hn & Hw & Hp & Hf)|(Hn & Hls & Hf & Hw & Hp)]];
    unfold origin_inv; rewrite Hw; split.
  - intros l k. rewrite Hp. apply O1.
  - intros name c l [Hin|[= -> ->]%list_elem_of_singleton]%elem_of_app Hl.
    + by apply (O2 name c).
    + by apply (O1 l (segment_id seg)).
  - intros l k. rewrite Hp. case_decide; [|apply O1].
    intros [Hl|Hl]%elem_of_app; [by apply (O1 l "exec")|].
    by apply (O1 l (segment_id seg)).
  - done.
  - intros l k. rewrite Hp. apply O1.
  - done.
Qed.

Lemma origin_inv_all (n : Z) (start : partitions) (rest : list segment)
    (st : assigner) :
  origin_inv start st → origin_inv start (foldl (filter_segment n) st rest).
Proof.
  revert st. induction rest as [|seg rest IH]; intros st H; [done|].
  cbn [foldl]. by apply IH, origin_inv_step.
Qed.

Lemma file_after_written (files : list (string * list lead)) (name : string)
    (c : list lead) :
  file_after files name = Some c → (name, c) ∈ files.
Proof.
  induction files as [|[n c'] files IH] using rev_ind; [done|].
  rewrite file_after_snoc. case_decide as Hn.
  - intros [= <-]. subst n. apply elem_of_app. right. by left.
  - intros H. apply elem_of_app. left. by apply IH.
Qed.

(** What is known of the state the filter loop ends in. *)
Lemma assign_inv (w : world) (n : Z) (leads : list lead) :
  loop_inv n (split_partitions w leads)
    (define_segments w (unique_titles leads)) (assign w n leads)
  ∧ origin_inv (split_partitions w leads) (assign w n leads).
Proof.
  rewrite assign_unfold. split.
  - apply (loop_inv_all n _ []), loop_inv_start.
  - apply origin_inv_all. split; [by eauto|]. by intros name c l ?%elem_of_nil.
Qed.

(** A run that succeeds got through the last step. *)
Lemma succeeded_inv (w : world) (n : Z) (manifest : mapping)
    (files : list (string * list lead)) (leads : list lead) :
  segment_by_job_title w n = Succeeded manifest files →
  input_file w = Content leads →
  ∃ st, resave_exec (assign w n leads) = Returned st
        ∧ segments manifest = filtered_segments st
        ∧ files = written st.
Proof.
  unfold segment_by_job_title. intros H Hfile. rewrite Hfile in H.
  destruct (api_key w) as [key|]; [|done].
  destruct (negb (Py.truthy key)); [done|]. cbv zeta in H.
  destruct (resave_exec (assign w n leads)) as [st|]; [|done].
  injection H as <- <-. by exists st.
Qed.

(** The last step, when it returns. *)
Lemma resave_returned (st st' : assigner) :
  resave_exec st = Returned st' →
  let e := part (segment_leads st) "exec" in
  (e = [] ∧ st' = st)
  ∨ (e ≠ []
     ∧ filtered_segments st' =
       set_exec_count (Py.len e) (filtered_segments st)
     ∧ written st' = written st ++ [("segment_exec_leads.json", e)]).
Proof.
  intros Hres.
  destruct (resave_exec_spec st)
    as [[He Hr]|[(He & _ & Hr)|(He & _ & st'' & Hr & _ & Hf & Hw)]];
    rewrite Hr in Hres; [|done|]; injection Hres as <-; eauto.
Qed.

(** X12: the Segment Assigner drops no lead and invents none: after a
    successful run every lead of the input is in the final content of some
    partition file, and the partition files hold leads of the input only. *)
Theorem no_lead_is_dropped (w : world) (n : Z) (manifest : mapping)
    (files : list (string * list lead)) (leads : list lead) :
  segment_by_job_title w n = Succeeded manifest files →
  input_file w = Content leads →
  (∀ l, l ∈ leads →
        ∃ name content, file_after files name = Some content ∧ l ∈ content)
  ∧ (∀ name content l,
       file_after files name = Some content → l ∈ content → l ∈ leads).
Proof.
  intros Hrun Hfile.
  destruct (succeeded_inv w n manifest files leads Hrun Hfile)
    as (st' & Hres & _ & ->).
  destruct (assign_inv w n leads)
    as [(I1 & I2 & I3 & I4 & I5 & I6) [O1 O2]].
  set (st := assign w n leads) in *.
  destruct (split_partitions_spec w leads) as (Hall & Hfrom & Hdefs).
  assert (Hexec : ∀ l, l ∈ part (segment_leads st) "exec" →
            ∃ name content,
              file_after (written st') name = Some content
              ∧ l ∈ content).
  { intros l Hl.
    destruct (resave_returned st st' Hres) as [[He _]|(He & _ & ->)].
    - rewrite He in Hl. by apply elem_of_nil in Hl.
    - exists "segment_exec_leads.json", (part (segment_leads st) "exec").
      split; [|done]. by rewrite file_after_snoc, decide_True. }
  split.
  - intros l Hl. destruct (Hall l Hl) as [k Hk].
    destruct (decide (k = "exec")) as [->|Hne]; [by apply Hexec, I2|].
    destruct (Hdefs k Hne) as (seg & Hseg & <-).
    { intros Hnil. rewrite Hnil in Hk. by apply elem_of_nil in Hk. }
    destruct (I3 seg l Hseg Hne Hk) as [?|[c Hc]]; [by apply Hexec|].
    pose proof (I4 _ _ Hne Hc) as ->.
    exists (segment_file (segment_id seg)),
      (part (split_partitions w leads) (segment_id seg)).
    split; [|done].
    destruct (resave_returned st st' Hres) as [[_ ->]|(_ & _ & ->)]; [done|].
    rewrite file_after_snoc, decide_False; [done|].
    intros Hname. by apply (segment_file_inj "exec") in Hname.
  - intros name content l Hc%file_after_written Hl.
    assert (∃ k', l ∈ part (split_partitions w leads) k') as [k' Hk'];
      [|by apply (Hfrom l k')].
    destruct (resave_returned st st' Hres) as [[_ Hsame]|(_ & _ & Hw)].
    + rewrite Hsame in Hc. by apply (O2 name content).
    + rewrite Hw in Hc.
      apply elem_of_app in Hc as [Hc|[= -> ->]%list_elem_of_singleton].
      * by apply (O2 name content).
      * by apply (O1 l "exec").
Qed.

Lemma no_lead_is_dropped_witness :
  ∃ name content,
    file_after (files_of (segment_by_job_title Examples.ten_ceos_one_coo 10))
               name = Some content
    ∧ Examples.titled "COO" ∈ content.
Proof.
  destruct (segment_by_job_title Examples.ten_ceos_one_coo 10)
    as [|manifest files|files] eqn:Hrun.
  - exfalso. revert Hrun. vm_compute. discriminate.
  - apply (no_lead_is_dropped Examples.ten_ceos_one_coo 10 manifest files
             (replicate 10 (Examples.titled "CEO") ++ [Examples.titled "COO"])
             Hrun eq_refl).
    apply elem_of_app. right. by left.
  - exfalso. revert Hrun. vm_compute. discriminate.
Defined.

(** X13: every segment of the emitted manifest other than exec is a
    segment of the classifier's (or the fallback's) definitions, unchanged
    but for its [lead_count]; it has a partition file of its own, its
    [lead_count] is the number of leads in that file, and that number is at
    least the minimum segment size. *)
Theorem kept_segments_match_their_files (w : world) (n : Z)
    (manifest : mapping) (files : list (string * list lead))
    (leads : list lead) (s : segment) :
  segment_by_job_title w n = Succeeded manifest files →
  input_file w = Content leads →
  s ∈ segments manifest → segment_id s ≠ "exec" →
  ∃ seg content,
    seg ∈ define_segments w (unique_titles leads)
    ∧ s = with_lead_count seg (Some (Py.len content))
    ∧ file_after files (segment_file (segment_id s)) = Some content
    ∧ (n ≤ Py.len content)%Z.
Proof.
  intros Hrun Hfile Hs Hid.
  destruct (succeeded_inv w n manifest files leads Hrun Hfile)
    as (st' & Hres & Hsegs & ->).
  rewrite Hsegs in Hs.
  destruct (assign_inv w n leads)
    as [(I1 & I2 & I3 & I4 & I5 & I6) _].
  set (st := assign w n leads) in *.
  assert (Hold : s ∈ filtered_segments st).
  { destruct (resave_returned st st' Hres) as [[_ Hsame]|(_ & Hf & _)].
    - by rewrite Hsame in Hs.
    - rewrite Hf in Hs. by apply (set_exec_count_keeps _ _ _ Hs). }
  destruct (I5 s Hold Hid) as ((seg & Hseg & Heq) & Hmin & [c Hc]).
  pose proof (I4 _ _ Hid Hc) as ->.
  exists seg, (part (split_partitions w leads) (segment_id s)).
  split; [done|]. split; [done|]. split; [|done].
  destruct (resave_returned st st' Hres) as [[_ ->]|(_ & _ & ->)]; [done|].
  rewrite file_after_snoc, decide_False; [done|].
  intros Hname. by apply (segment_file_inj "exec") in Hname.
Qed.

Lemma kept_segments_match_their_files_witness :
  let leads := replicate 2 (Examples.titled "CEO")
               ++ replicate 2 (Examples.titled "COO") in
  let w := World (Some "key") (Content leads) (fun _ => None) true in
  ∃ content,
    file_after (files_of (segment_by_job_title w 2))
               (segment_file "operations") = Some content
    ∧ (2 ≤ Py.len content)%Z.
Proof.
  intros leads w.
  assert (Hm : (fun m => segment_id <$> segments m)
                 <$> manifest_of (segment_by_job_title w 2)
               = Some ["exec"; "operations"]) by (vm_compute; reflexivity).
  destruct (segment_by_job_title w 2) as [|manifest files|] eqn:Hrun;
    [done| |done].
  cbn in Hm. injection Hm as Hm.
  destruct (segments manifest) as [|s0 [|s [|s2 rest]]] eqn:Hsegs; try done.
  injection Hm as _ Hid.
  destruct (kept_segments_match_their_files w 2 manifest files leads s
              Hrun eq_refl) as (seg & content & _ & _ & Hfile & Hmin).
  - rewrite Hsegs. right. by left.
  - by rewrite Hid.
  - rewrite Hid in Hfile. by exists content.
Defined.

(** X14: with a minimum segment size of at least 1, when the emitted
    manifest has an exec entry the exec partition file is written and is not
    empty, and the [lead_count] of the first exec entry is the number of
    leads in that file. *)
Theorem exec_entry_matches_exec_file (w : world) (n : Z)
    (manifest : mapping) (files : list (string * list lead))
    (leads : list lead) (before after : list segment) (s : segment) :
  segment_by_job_title w n = Succeeded manifest files →
  input_file w = Content leads →
  (1 ≤ n)%Z →
  segments manifest = before ++ s :: after →
  segment_id s = "exec" →
  Forall (fun x => segment_id x ≠ "exec") before →
  ∃ content,
    file_after files "segment_exec_leads.json" = Some content
    ∧ content ≠ []
    ∧ lead_count s = Some (Py.len content).
Proof.
  intros Hrun Hfile Hn Hsplit Hid Hbefore.
  destruct (succeeded_inv w n manifest files leads Hrun Hfile)
    as (st' & Hres & Hsegs & ->).
  rewrite Hsegs in Hsplit.
  destruct (assign_inv w n leads)
    as [(I1 & I2 & I3 & I4 & I5 & I6) _].
  set (st := assign w n leads) in *.
  assert (Hin : s ∈ filtered_segments st').
  { rewrite Hsplit. apply elem_of_app. right. by left. }
  destruct (resave_returned st st' Hres) as [[He Hsame]|(He & Hf & Hw)].
  - exfalso. rewrite Hsame in Hin. apply (I6 Hn); [|done]. by exists s.
  - rewrite Hw. exists (part (segment_leads st) "exec").
    split; [by rewrite file_after_snoc, decide_True|]. split; [done|].
    rewrite Hf in Hsplit. by apply (set_exec_count_first _ _ _ _ _ Hsplit).
Qed.

Lemma exec_entry_matches_exec_file_witness :
  ∃ content,
    file_after (files_of (segment_by_job_title Examples.three_ceos 10))
               "segment_exec_leads.json" = Some content
    ∧ content ≠ [].
Proof.
  destruct (segment_by_job_title Examples.three_ceos 10)
    as [|manifest files|files] eqn:Hrun.
  - exfalso. revert Hrun. vm_compute. discriminate.
  - assert (Hsegs : ∃ s, segments manifest = [] ++ s :: []
                         ∧ segment_id s = "exec").
    { assert (Hm : (fun m => segment_id <$> segments m)
                     <$> manifest_of
                           (segment_by_job_title Examples.three_ceos 10)
                   = Some ["exec"]) by (vm_compute; reflexivity).
      rewrite Hrun in Hm. cbn in Hm. injection Hm as Hm.
      destruct (segments manifest) as [|s [|s' rest]]; try done.
      exists s. split; [done|]. by injection Hm. }
    destruct Hsegs as (s & Hsplit & Hid).
    destruct (exec_entry_matches_exec_file Examples.three_ceos 10 manifest
                files (replicate 3 (Examples.titled "CEO")) [] [] s
                Hrun eq_refl ltac:(lia) Hsplit Hid ltac:(constructor))
      as (content & Hc & Hne & _).
    by exists content.
  - exfalso. revert Hrun. vm_compute. discriminate.
Defined.
End OutputProofs.

(** ** The output directory *)

Module DirectoryProofs.
Import Segmenter PartitionTerms PartitionProofs LoopProofs OutputProofs.




End DirectoryProofs.

(** ** The classifier's answer *)

Module ResponseProofs.
Import Response.

Lemma str_app_assoc (a b c : string) :
  String.app (String.app a b) c = String.app a (String.app b c).
Proof.
  induction a as [|x a IH]; [done|].
  change (String x (String.app (String.app a b) c)
          = String x (String.app a (String.app b c))). by rewrite IH.
Qed.

Lemma str_app_nil_r (a : string) : String.app a "" = a.
Proof.
  induction a as [|x a IH]; [done|].
  change (String x (String.app a "") = String x a). by rewrite IH.
Qed.

Lemma rev_app_spec (a b : string) :
  String.rev_app a b = String.app (String.rev a) b.
Proof.
  unfold String.rev. revert b. induction a as [|x a IH]; intros b; [done|].
  cbn [String.rev_app]. rewrite (IH (String x b)), (IH (String x "")).
  by rewrite str_app_assoc.
Qed.

Lemma rev_cons (x : ascii) (a : string) :
  String.rev (String x a) = String.app (String.rev a) (String x "").
Proof. unfold String.rev at 1. cbn [String.rev_app]. apply rev_app_spec. Qed.

Lemma rev_app_distr (a b : string) :
  String.rev (String.app a b) = String.app (String.rev b) (String.rev a).
Proof.
  induction a as [|x a IH].
  - by rewrite str_app_nil_r.
  - change (String.app (String x a) b) with (String x (String.app a b)).
    by rewrite !rev_cons, IH, str_app_assoc.
Qed.

Lemma rev_involutive (a : string) : String.rev (String.rev a) = a.
Proof.
  induction a as [|x a IH]; [done|].
  by rewrite rev_cons, rev_app_distr, IH.
Qed.

Lemma free_app (a b : string) :
  backtick_free (String.app a b) ↔ backtick_free a ∧ backtick_free b.
Proof.
  induction a as [|x a IH]; [cbn; tauto|].
  change (String.app (String x a) b) with (String x (String.app a b)).
  cbn. rewrite IH. tauto.
Qed.

Lemma free_rev (a : string) : backtick_free (String.rev a) ↔ backtick_free a.
Proof.
  induction a as [|x a IH]; [done|].
  rewrite rev_cons, free_app, IH. cbn. tauto.
Qed.

Lemma free_lstrip (a : string) : backtick_free a → backtick_free (Py.lstrip a).
Proof.
  induction a as [|x a IH]; [done|]. cbn. intros [Hx Ha].
  destruct (Py.is_space x); [by apply IH | done].
Qed.

Lemma free_strip (a : string) : backtick_free a → backtick_free (Py.strip a).
Proof.
  intros H. unfold Py.strip.
  by apply free_rev, free_lstrip, free_rev, free_lstrip.
Qed.

Lemma lstrip_app (a m : string) (c : ascii) :
  Py.is_space c = false →
  Py.lstrip (String.app a (String c m)) = String.app (Py.lstrip a) (String c m).
Proof.
  intros Hc. induction a as [|x a IH].
  - change (String.app "" (String c m)) with (String c m).
    change (String.app (Py.lstrip "") (String c m)) with (String c m).
    cbn [Py.lstrip]. by rewrite Hc.
  - change (String.app (String x a) (String c m))
      with (String x (String.app a (String c m))).
    cbn [Py.lstrip]. destruct (Py.is_space x); [exact IH | reflexivity].
Qed.

(** Stripping a text whose middle begins and ends with a backtick strips
    what precedes and what follows the middle. *)
Lemma strip_fenced (pre mid post : string) :
  Py.strip (String.app pre (String "`" (String.app mid (String "`" post)))) =
  String.app (Py.lstrip pre)
    (String "`" (String.app mid
       (String "`" (String.rev (Py.lstrip (String.rev post)))))).
Proof.
  unfold Py.strip. rewrite lstrip_app by done.
  set (B := String.app (Py.lstrip pre) (String "`" mid)).
  assert (E : String.app (Py.lstrip pre)
                (String "`" (String.app mid (String "`" post)))
              = String.app (String.app B "`") post).
  { unfold B. rewrite !str_app_assoc. reflexivity. }
  rewrite E, !rev_app_distr.
  change (String.app (String.rev "`") (String.rev B))
    with (String "`" (String.rev B)).
  rewrite lstrip_app by done.
  rewrite rev_app_distr, rev_cons, rev_involutive.
  unfold B. rewrite !str_app_assoc. reflexivity.
Qed.

Lemma prefix_refl_app (a b : string) : String.prefix a (String.app a b) = true.
Proof. apply prefix_app. by exists b. Qed.

Lemma skip_app (a b : string) : skip (String.length a) (String.app a b) = b.
Proof. induction a as [|x a IH]; [done | exact IH]. Qed.

Lemma prefix_backtick (sep rest : string) (c : ascii) :
  c ≠ "`"%char → String.prefix (String "`" sep) (String c rest) = false.
Proof.
  intros Hc.
  change (String.prefix (String "`" sep) (String c rest))
    with (if ascii_dec "`" c then String.prefix sep rest else false).
  by destruct (ascii_dec "`" c) as [<-|].
Qed.

Lemma before_fence (sep pre rest : string) :
  backtick_free pre →
  before (String "`" sep) (String.app pre (String.app (String "`" sep) rest))
  = pre.
Proof.
  induction pre as [|x pre IH]; intros Hfree.
  - change (String.app "" (String.app (String "`" sep) rest))
      with (String "`" (String.app sep rest)).
    cbn [before].
    change (String "`" (String.app sep rest))
      with (String.app (String "`" sep) rest).
    by rewrite prefix_refl_app.
  - destruct Hfree as [Hx Hfree].
    change (String.app (String x pre) (String.app (String "`" sep) rest))
      with (String x (String.app pre (String.app (String "`" sep) rest))).
    cbn [before]. rewrite prefix_backtick by done. by rewrite IH.
Qed.

Lemma after_fence (sep pre rest : string) :
  backtick_free pre →
  after (String "`" sep) (String.app pre (String.app (String "`" sep) rest))
  = Some rest.
Proof.
  induction pre as [|x pre IH]; intros Hfree.
  - change (String.app "" (String.app (String "`" sep) rest))
      with (String "`" (String.app sep rest)).
    cbn [after].
    change (String "`" (String.app sep rest))
      with (String.app (String "`" sep) rest).
    by rewrite prefix_refl_app, skip_app.
  - destruct Hfree as [Hx Hfree].
    change (String.app (String x pre) (String.app (String "`" sep) rest))
      with (String x (String.app pre (String.app (String "`" sep) rest))).
    cbn [after]. rewrite prefix_backtick by done. by apply IH.
Qed.

Lemma before_free (sep s : string) :
  backtick_free s → before (String "`" sep) s = s.
Proof.
  induction s as [|x s IH]; [done|]. intros [Hx Hs].
  cbn [before]. rewrite prefix_backtick by done. by rewrite IH.
Qed.

Lemma contains_free (sep s : string) :
  backtick_free s → Py.contains (String "`" sep) s = false.
Proof.
  induction s as [|x s IH]; [done|]. intros [Hx Hs].
  change (Py.contains (String "`" sep) (String x s))
    with (String.prefix (String "`" sep) (String x s)
          || Py.contains (String "`" sep) s).
  rewrite prefix_backtick by done. by rewrite IH.
Qed.

(** The piece between a json fence and the next one ends at the closing
    fence or runs past it, backticks included. *)
Lemma before_json_fence (body post : string) :
  backtick_free body → backtick_free post →
  ∃ t, before "```json" (String.app body (String.app "```" post))
       = String.app body t
       ∧ (t = "" ∨ ∃ x, t = String.app "```" x).
Proof.
  intros Hbody Hpost. induction body as [|x body IH].
  - change (String.app "" (String.app "```" post))
      with (String "`" (String "`" (String "`" post))).
    destruct (String.prefix "```json" (String "`" (String "`" (String "`" post))))
      eqn:Hp.
    + exists "". split; [|by left]. cbn [before]. by rewrite Hp.
    + exists (String.app "```" (before "```json" post)).
      split; [|right; by eexists].
      cbn [before]. rewrite Hp.
      assert (H2 : String.prefix "```json" (String "`" (String "`" post))
                   = false).
      { destruct post as [|c post]; [done|]. destruct Hpost as [Hc _].
        change (String.prefix "```json" (String "`" (String "`" (String c post))))
          with (String.prefix "`json" (String c post)).
        by apply prefix_backtick. }
      assert (H1 : String.prefix "```json" (String "`" post) = false).
      { destruct post as [|c post]; [done|]. destruct Hpost as [Hc _].
        change (String.prefix "```json" (String "`" (String c post)))
          with (String.prefix "``json" (String c post)).
        by apply prefix_backtick. }
      by rewrite H2, H1.
  - destruct Hbody as [Hx Hbody]. destruct (IH Hbody) as (t & Ht & Hcase).
    exists t. split; [|done].
    change (String.app (String x body) (String.app "```" post))
      with (String x (String.app body (String.app "```" post))).
    cbn [before]. rewrite prefix_backtick by done. by rewrite Ht.
Qed.

(** X16: the text handed to the JSON parser.  An answer without any
    backtick is parsed as it is, stripped of surrounding whitespace.  An
    answer that wraps its payload in a json code fence, with no backtick
    before the fence, in the payload or after the closing fence, is parsed
    as the payload alone, stripped: what precedes and follows the fenced
    block is ignored. *)
Theorem fenced_payload_is_extracted :
  (∀ answer, backtick_free answer →
             extract_json_text answer = Some (Py.strip answer))
  ∧ (∀ pre body post,
       backtick_free pre → backtick_free body → backtick_free post →
       extract_json_text
         (String.app pre
            (String.app "```json" (String.app body (String.app "```" post))))
       = Some (Py.strip body)).
Proof.
  split.
  - intros answer Hfree%free_strip. unfold extract_json_text.
    by rewrite !contains_free.
  - intros pre body post Hpre Hbody Hpost. unfold extract_json_text.
    set (post' := String.rev (Py.lstrip (String.rev post))).
    assert (Hpost' : backtick_free post').
    { by apply free_rev, free_lstrip, free_rev. }
    assert (Hstrip :
      Py.strip (String.app pre
         (String.app "```json" (String.app body (String.app "```" post))))
      = String.app (Py.lstrip pre)
          (String.app "```json" (String.app body (String.app "```" post')))).
    { assert (E : ∀ p, String.app "```json"
                          (String.app body (String.app "```" p))
                       = String "`" (String.app
                           (String.app "``json" (String.app body "``"))
                           (String "`" p))).
      { intros p. rewrite !str_app_assoc. reflexivity. }
      by rewrite !E, strip_fenced. }
    rewrite Hstrip. cbv zeta.
    assert (Hin : Py.contains "```json"
              (String.app (Py.lstrip pre)
                 (String.app "```json"
                    (String.app body (String.app "```" post')))) = true).
    { apply contains_spec. by eexists _, _. }
    rewrite Hin. unfold second_piece.
    rewrite (after_fence "``json" (Py.lstrip pre)) by by apply free_lstrip.
    cbn [fmap option_fmap option_map].
    destruct (before_json_fence body post' Hbody Hpost')
      as (t & -> & [->|[x ->]]).
    + by rewrite str_app_nil_r, before_free.
    + by rewrite (before_fence "``" body x).
Qed.

Lemma fenced_payload_is_extracted_witness :
  extract_json_text
    (String.app "Here you go: "
       (String.app "```json" (String.app " {} " (String.app "```" " Bye"))))
  = Some "{}".
Proof.
  destruct fenced_payload_is_extracted as [_ Hfenced].
  rewrite (Hfenced "Here you go: " " {} " " Bye");
    [reflexivity | by vm_compute..].
Defined.
End ResponseProofs.

